(** * ubuntu-report: the command-output mappers of [internal/metrics/cmd.go]

    A shallow embedding of the field mappers ([getGPU], [getCPU],
    [getScreens], [getPartitions], [getHwCap]) and of the process runner
    [runCmd], together with the parts of Go's [strings], [bytes],
    [strconv] and [regexp] packages they call.

    Strings and byte slices are [string] (a list of bytes).  Logging
    through logrus is an explicit list of entries returned next to the
    result.  A Go [(value, error)] pair is a pair whose second component
    is an [option error]. *)

From Stdlib Require Import List Bool Arith ZArith Lia Ascii String.
From Stdlib Require Import Floats.PrimFloat Numbers.Cyclic.Int63.Uint63.
Import ListNotations.

Set Warnings "-register-all".

Local Open Scope string_scope.
Local Open Scope list_scope.
Local Open Scope nat_scope.

(** ** Byte-string helpers *)

Definition LF : ascii := ascii_of_nat 10.

Fixpoint take (n : nat) (s : string) : string :=
  match n, s with
  | S k, String c s' => String c (take k s')
  | _, _ => EmptyString
  end.

Fixpoint drop (n : nat) (s : string) : string :=
  match n, s with
  | S k, String _ s' => drop k s'
  | _, _ => s
  end.

(** ** Go's [strings] and [bytes] packages (the functions the mappers call) *)

Module GoStrings.

(** [strings.HasPrefix(s, prefix)]. *)
Definition HasPrefix (s p : string) : bool := String.prefix p s.

(** Offset of the first occurrence of [substr] in [s]. *)
Fixpoint index_nat (s substr : string) : option nat :=
  if String.prefix substr s then Some 0
  else match s with
       | EmptyString => None
       | String _ s' => option_map S (index_nat s' substr)
       end.

(** [strings.Index(s, substr)] and [bytes.Index(s, sep)]: the offset of the
    first occurrence, or -1. *)
Definition Index (s substr : string) : Z :=
  match index_nat s substr with
  | Some i => Z.of_nat i
  | None => (-1)%Z
  end.

(** [strings.Replace(s, old, new, n)] for a non-empty [old]: the first [n]
    non-overlapping occurrences are replaced, all of them when [n < 0].
    [skip] counts the bytes of an occurrence still to pass over. *)
Fixpoint replace_go (skip : nat) (old new : string) (n : Z) (s : string) : string :=
  match s with
  | EmptyString => EmptyString
  | String c s' =>
      match skip with
      | S k => replace_go k old new n s'
      | O =>
          if (n =? 0)%Z then s
          else if String.prefix old s
               then new ++ replace_go (String.length old - 1) old new (n - 1)%Z s'
               else String c (replace_go 0 old new n s')
      end
  end.

Definition Replace (s old new : string) (n : Z) : string :=
  replace_go 0 old new n s.

(** Width in bytes of the white-space rune ([unicode.IsSpace]) whose UTF-8
    encoding starts [s]; 0 when [s] does not start with one.  The runes are
    U+0009..U+000D, U+0020, U+0085, U+00A0, U+1680, U+2000..U+200A, U+2028,
    U+2029, U+202F, U+205F and U+3000.  A lead byte of these encodings is
    never a continuation byte, so testing at every byte offset agrees with
    Go's rune-by-rune scan. *)
Definition spaceWidth (s : string) : nat :=
  match s with
  | EmptyString => 0
  | String c1 s1 =>
      let b1 := nat_of_ascii c1 in
      if ((9 <=? b1) && (b1 <=? 13)) || (b1 =? 32) then 1
      else match s1 with
           | EmptyString => 0
           | String c2 s2 =>
               let b2 := nat_of_ascii c2 in
               if (b1 =? 194) && ((b2 =? 133) || (b2 =? 160)) then 2
               else match s2 with
                    | EmptyString => 0
                    | String c3 _ =>
                        let b3 := nat_of_ascii c3 in
                        if (b1 =? 225) && (b2 =? 154) && (b3 =? 128) then 3
                        else if (b1 =? 226) && (b2 =? 128)
                                && (((128 <=? b3) && (b3 <=? 138))
                                    || (b3 =? 168) || (b3 =? 169) || (b3 =? 175))
                        then 3
                        else if (b1 =? 226) && (b2 =? 129) && (b3 =? 159) then 3
                        else if (b1 =? 227) && (b2 =? 128) && (b3 =? 128) then 3
                        else 0
                    end
           end
  end.

Definition flush (cur : string) : list string :=
  match cur with
  | EmptyString => []
  | _ => [cur]
  end.

(** The scan of [strings.Fields]: [cur] is the field being read (empty
    between fields), [skip] the bytes of a white-space rune still to pass. *)
Fixpoint fields_go (skip : nat) (cur : string) (s : string) : list string :=
  match s with
  | EmptyString => flush cur
  | String c s' =>
      match skip with
      | S k => fields_go k cur s'
      | O =>
          match spaceWidth s with
          | O => fields_go 0 (cur ++ String c EmptyString) s'
          | S k => flush cur ++ fields_go k EmptyString s'
          end
      end
  end.

(** [strings.Fields(s)]: the maximal runs of non-white-space of [s]. *)
Definition Fields (s : string) : list string := fields_go 0 EmptyString s.

(** The loop of [strings.SplitN] for a non-empty separator. *)
Fixpoint splitN_go (fuel : nat) (s sep : string) (n : Z) : list string :=
  match fuel with
  | O => [s]
  | S f =>
      if (n =? 1)%Z then [s]
      else match index_nat s sep with
           | None => [s]
           | Some i =>
               take i s :: splitN_go f (drop (i + String.length sep) s) sep (n - 1)%Z
           end
  end.

(** [strings.SplitN(s, sep, n)] for a non-empty [sep]: at most [n]
    substrings, the last one the unsplit remainder; all of them when
    [n < 0]; none when [n = 0]. *)
Definition SplitN (s sep : string) (n : Z) : list string :=
  if (n =? 0)%Z then [] else splitN_go (S (String.length s)) s sep n.

End GoStrings.

(** ** Go's [strconv.Atoi] and the conversion [float64(v)] *)

Module GoStrconv.

Definition digit (c : ascii) : option Z :=
  let b := nat_of_ascii c in
  if (48 <=? b) && (b <=? 57) then Some (Z.of_nat (b - 48)) else None.

Fixpoint digits (acc : Z) (s : string) : option Z :=
  match s with
  | EmptyString => Some acc
  | String c s' =>
      match digit c with
      | Some d => digits (acc * 10 + d)%Z s'
      | None => None
      end
  end.

Definition unsigned (s : string) : option Z :=
  match s with
  | EmptyString => None
  | _ => digits 0%Z s
  end.

Definition minInt : Z := (- 2 ^ 63)%Z.
Definition maxInt : Z := (2 ^ 63 - 1)%Z.

(** [strconv.Atoi(s)] on a 64-bit platform: an optional sign, then decimal
    digits; [None] stands for the syntax and range errors. *)
Definition Atoi (s : string) : option Z :=
  let v :=
    match s with
    | String "+" s' => unsigned s'
    | String "-" s' => option_map Z.opp (unsigned s')
    | _ => unsigned s
    end in
  match v with
  | Some z => if (minInt <=? z)%Z && (z <=? maxInt)%Z then Some z else None
  | None => None
  end.

Definition float64_of_nonneg (z : Z) : float :=
  if (z <? 2 ^ 63)%Z then PrimFloat.of_uint63 (Uint63.of_Z z)
  else PrimFloat.mul (PrimFloat.of_uint63 (Uint63.of_Z (2 ^ 62))) 2%float.

(** [float64(v)] for an [int] [v]: round to nearest, ties to even. *)
Definition float64 (z : Z) : float :=
  if (z <? 0)%Z then PrimFloat.opp (float64_of_nonneg (- z)) else float64_of_nonneg z.

End GoStrconv.

(** ** Go's [regexp] package, for the syntax the mappers' patterns use

    Patterns are read from their source text by [compile].  Matching is
    leftmost-first, the match a backtracking engine finds first: [run]
    lists the ways a pattern matches at a position in that order of
    preference, and [FindStringSubmatch] takes the first of the leftmost
    position.  The patterns of this file put only ASCII in their literals
    and class bounds, so matching byte by byte agrees with Go's matching
    rune by rune. *)

Module Regexp.

(** Sets of bytes: the classes a pattern can name. *)
Inductive cset : Type :=
| CNone
| CChar (c : ascii)
| CRange (lo hi : ascii)
| CDigit                      (* \d : [0-9] *)
| CSpace                      (* \s : [\t\n\f\r ] *)
| CDot                        (* .  : any byte but a line feed *)
| CUnion (a b : cset)
| CNot (a : cset).

Fixpoint cset_mem (k : cset) (c : ascii) : bool :=
  let b := nat_of_ascii c in
  match k with
  | CNone => false
  | CChar d => Ascii.eqb c d
  | CRange lo hi => (nat_of_ascii lo <=? b) && (b <=? nat_of_ascii hi)
  | CDigit => (48 <=? b) && (b <=? 57)
  | CSpace => (b =? 9) || (b =? 10) || (b =? 12) || (b =? 13) || (b =? 32)
  | CDot => negb (b =? 10)
  | CUnion x y => cset_mem x c || cset_mem y c
  | CNot x => negb (cset_mem x c)
  end.

Inductive re : Type :=
| Eps
| Chr (k : cset)
| Seq (a b : re)
| Alt (a b : re)              (* a|b, [a] preferred *)
| Star (a : re)               (* a*, greedy *)
| Grp (i : nat) (a : re)      (* the i-th capturing group *)
| Bol                         (* ^ : at the beginning of the text *)
| Eol.                        (* $ : at the end of the text *)

Definition Plus (a : re) : re := Seq a (Star a).   (* a+ *)
Definition Opt (a : re) : re := Alt a Eps.         (* a? *)

Definition cat (a b : re) : re :=
  match b with
  | Eps => a
  | _ => Seq a b
  end.

(** *** Reading a pattern *)

Definition alnum (c : ascii) : bool :=
  let b := nat_of_ascii c in
  ((48 <=? b) && (b <=? 57)) || ((65 <=? b) && (b <=? 90)) || ((97 <=? b) && (b <=? 122)).

(** What follows a backslash: [\d], [\s], or a punctuation byte taken
    literally.  The other escapes of Go are not read. *)
Definition escape (c : ascii) : option cset :=
  if Ascii.eqb c "d" then Some CDigit
  else if Ascii.eqb c "s" then Some CSpace
  else if alnum c || (128 <=? nat_of_ascii c) then None
  else Some (CChar c).

(** The items of a bracket expression, after the opening bracket and the
    optional [^]; an expression without items is not read. *)
Fixpoint parseClass (acc : cset) (s : string) : option (cset * string) :=
  match s with
  | EmptyString => None
  | String "]" s' => match acc with CNone => None | _ => Some (acc, s') end
  | String "\" (String c s') =>
      match escape c with
      | Some k => parseClass (CUnion acc k) s'
      | None => None
      end
  | String lo (String "-" (String hi s' as rest) as dash) =>
      if Ascii.eqb hi "]" then parseClass (CUnion acc (CChar lo)) dash
      else parseClass (CUnion acc (CRange lo hi)) s'
  | String c s' => parseClass (CUnion acc (CChar c)) s'
  end.

Fixpoint postfix (a : re) (s : string) : re * string :=
  match s with
  | String "*" s' => postfix (Star a) s'
  | String "+" s' => postfix (Plus a) s'
  | String "?" s' => postfix (Opt a) s'
  | _ => (a, s)
  end.

(** Recursive descent; [n] is the number of capturing groups opened so far,
    so that groups are numbered by their opening parenthesis.  Counted
    repetition, flags and named groups are not read. *)
Fixpoint parseAlt (fuel : nat) (s : string) (n : nat) : option (re * string * nat) :=
  match fuel with
  | O => None
  | S f =>
      match parseCat f s n with
      | Some (a, String "|" s', n') =>
          match parseAlt f s' n' with
          | Some (b, s'', n'') => Some (Alt a b, s'', n'')
          | None => None
          end
      | r => r
      end
  end
with parseCat (fuel : nat) (s : string) (n : nat) : option (re * string * nat) :=
  match fuel with
  | O => None
  | S f =>
      match s with
      | EmptyString => Some (Eps, s, n)
      | String ")" _ => Some (Eps, s, n)
      | String "|" _ => Some (Eps, s, n)
      | _ =>
          match parseAtom f s n with
          | Some (a, s', n') =>
              let (a', s'') := postfix a s' in
              match parseCat f s'' n' with
              | Some (b, s''', n'') => Some (cat a' b, s''', n'')
              | None => None
              end
          | None => None
          end
      end
  end
with parseAtom (fuel : nat) (s : string) (n : nat) : option (re * string * nat) :=
  match fuel with
  | O => None
  | S f =>
      match s with
      | EmptyString => None
      | String "(" (String "?" (String ":" s')) =>
          match parseAlt f s' n with
          | Some (a, String ")" s'', n') => Some (a, s'', n')
          | _ => None
          end
      | String "(" s' =>
          match parseAlt f s' (S n) with
          | Some (a, String ")" s'', n') => Some (Grp (S n) a, s'', n')
          | _ => None
          end
      | String "[" (String "^" s') =>
          match parseClass CNone s' with
          | Some (k, s'') => Some (Chr (CNot k), s'', n)
          | None => None
          end
      | String "[" s' =>
          match parseClass CNone s' with
          | Some (k, s'') => Some (Chr k, s'', n)
          | None => None
          end
      | String "\" (String c s') =>
          match escape c with
          | Some k => Some (Chr k, s', n)
          | None => None
          end
      | String "\" EmptyString => None
      | String "." s' => Some (Chr CDot, s', n)
      | String "^" s' => Some (Bol, s', n)
      | String "$" s' => Some (Eol, s', n)
      | String "*" _ => None
      | String "+" _ => None
      | String "?" _ => None
      | String "{" _ => None
      | String c s' => Some (Chr (CChar c), s', n)
      end
  end.

(** A compiled pattern: its syntax tree and its number of capturing groups. *)
Record Regexp : Type := mkRegexp { prog : re; NumSubexp : nat }.

Definition compile (pattern : string) : option Regexp :=
  match parseAlt (3 * String.length pattern + 3) pattern 0 with
  | Some (a, EmptyString, n) => Some (mkRegexp a n)
  | _ => None
  end.

(** [regexp.MustCompile]: Go panics on a pattern that does not compile;
    here such a pattern gets the program that matches nothing. *)
Definition MustCompile (pattern : string) : Regexp :=
  match compile pattern with
  | Some r => r
  | None => mkRegexp (Chr CNone) 0
  end.

(** *** Matching *)

(** Captures, most recent first: group number and captured text. *)
Definition caps : Type := list (nat * string).

(** A thread of the matcher: captures so far, offset in the text, and the
    text still to read. *)
Definition thread : Type := (caps * nat * string)%type.

Definition rest_of (t : thread) : string := snd t.
Definition pos_of (t : thread) : nat := snd (fst t).
Definition caps_of (t : thread) : caps := fst (fst t).

Definition capture (i : nat) (from : thread) (to : thread) : thread :=
  ((i, take (pos_of to - pos_of from) (rest_of from)) :: caps_of to, pos_of to, rest_of to).

(** The iterations of a star whose body matches as [body] says: one more
    iteration, if it consumes something, is preferred to stopping.  A star
    needs no more iterations than the text has bytes left. *)
Fixpoint star (body : thread -> list thread) (fuel : nat) (t : thread) : list thread :=
  match fuel with
  | O => [t]
  | S fuel' =>
      flat_map
        (fun t' =>
           if String.length (rest_of t') <? String.length (rest_of t)
           then star body fuel' t' else [])
        (body t)
      ++ [t]
  end.

(** All the ways [r] matches from thread [t], preferred first. *)
Fixpoint run (r : re) (t : thread) : list thread :=
  match r with
  | Eps => [t]
  | Chr k =>
      match rest_of t with
      | String c s' => if cset_mem k c then [(caps_of t, S (pos_of t), s')] else []
      | EmptyString => []
      end
  | Seq a b => flat_map (run b) (run a t)
  | Alt a b => run a t ++ run b t
  | Star a => star (run a) (String.length (rest_of t)) t
  | Grp i a => map (capture i t) (run a t)
  | Bol => if pos_of t =? 0 then [t] else []
  | Eol => match rest_of t with EmptyString => [t] | _ => [] end
  end.

Fixpoint lookup (i : nat) (c : caps) : option string :=
  match c with
  | [] => None
  | (j, s) :: c' => if j =? i then Some s else lookup i c'
  end.

(** A match: where it starts and ends, and the captures. *)
Record Match : Type := mkMatch { mstart : nat; mend : nat; mcaps : caps }.

(** The leftmost match at or after offset [p], [s] being the text from [p]. *)
Fixpoint find_from (r : re) (p : nat) (s : string) : option Match :=
  match run r ([], p, s) with
  | t :: _ => Some (mkMatch p (pos_of t) (caps_of t))
  | [] =>
      match s with
      | EmptyString => None
      | String _ s' => find_from r (S p) s'
      end
  end.

(** [FindStringSubmatchIndex] of a compiled pattern, as a [Match]: a group
    that took no part in the match has no capture. *)
Definition FindStringSubmatch (rx : Regexp) (s : string) : option Match :=
  find_from (prog rx) 0 s.

End Regexp.

(** ** Errors, streams, commands and the log *)

Inductive error : Type :=
| OSError (msg : string)                                  (* what [cmd.Run] returns *)
| Wrapf (cause : error) (format : string) (args : list string)   (* errors.Wrapf *)
| Errorf (format : string) (args : list string).          (* errors.Errorf *)

(** An [io.Reader] read to its end: the bytes it yields, then end of stream
    ([None]) or a read error. *)
Record Reader : Type := mkReader { rdata : string; rerr : option error }.

(** [bytes.NewReader(b)]. *)
Definition NewReader (b : string) : Reader := mkReader b None.

(** [ioutil.ReadAll(r)]. *)
Definition ReadAll (r : Reader) : string * option error := (rdata r, rerr r).

(** An [*exec.Cmd] with the behaviour of its process: the bytes the process
    writes to its standard output, and what [cmd.Run()] returns ([None] for
    exit status 0, otherwise the start failure or the exit error). *)
Record Cmd : Type := mkCmd { Args : list string; Stdout : string; RunErr : option error }.

(** Modelled from the spec: [LscpuEntry] and [Lscpu] are declared in a file
    of the package that is not part of this development.  A tree entry has
    a field label, its data and an ordered sequence of child entries; the
    field names are the ones [cmd.go] reads. *)
Inductive LscpuEntry : Type :=
  mkEntry { Field : string; Data : string; Children : list LscpuEntry }.

(** Modelled from the spec: the top level of the tree is a sequence of
    entries. *)
Record Lscpu : Type := mkLscpu { Lscpu_Lscpu : list LscpuEntry }.

(** The value a Go [interface{}] can hold, as far as [getCPU] looks at it. *)
Inductive iface : Type :=
| nilIface
| ptrLscpu (p : option Lscpu)      (* a [*Lscpu], possibly a nil pointer *)
| otherValue (shown : string).     (* a value of any other dynamic type *)

(** Format strings: [utils.ErrFormat] is declared outside this file, so a
    format that ends with it keeps it symbolic. *)
Inductive format : Type :=
| Fmt (s : string)
| FmtErrFormat (s : string).       (* s + utils.ErrFormat *)

Inductive logArg : Type :=
| ArgString (s : string)
| ArgError (e : error)
| ArgValue (v : iface).

(** One call of [log.Infof]. *)
Inductive logEntry : Type :=
| Infof (f : format) (args : list logArg).

Definition Log : Type := list logEntry.

(** What a function call ends in: a return value or a run-time panic. *)
Inductive outcome (A : Type) : Type :=
| Returns (a : A)
| Panics (reason : string).
Arguments Returns {A} a.
Arguments Panics {A} reason.

(** ** The line filter *)

Module Filter.

Import Regexp.

(** Modelled from the spec: [filterAll] and [filterFirst] are defined in a
    file of the package that is not part of this development.  They read
    the stream line by line (newline-delimited) and yield, for a line the
    pattern matches, its first capture group; a pattern without a capturing
    group captures the whole line.  The screen pattern has one group in
    each alternative and both kinds of line are captured, so the first
    capture group is the first one that took part in the match. *)
Fixpoint lines (s : string) : list string :=
  match s with
  | EmptyString => []
  | String c s' =>
      if Ascii.eqb c LF then EmptyString :: lines s'
      else match lines s' with
           | [] => [String c EmptyString]
           | l :: ls => String c l :: ls
           end
  end.

(** Modelled from the spec: the first of the groups 1..n that took part in
    the match. *)
Definition firstGroup (n : nat) (c : caps) : option string :=
  hd_error
    (flat_map (fun i => match lookup i c with Some s => [s] | None => [] end) (seq 1 n)).

(** Modelled from the spec: the first capture group of a match, the whole
    line for a pattern without capturing groups. *)
Definition captured (rx : Regexp) (line : string) (m : Match) : string :=
  if NumSubexp rx =? 0 then line
  else match firstGroup (NumSubexp rx) (mcaps m) with
       | Some s => s
       | None => EmptyString
       end.

(** Modelled from the spec: the capture of one line, when the pattern
    matches it; with [anchorToStart], only a match that starts at column 0
    counts. *)
Definition filterLine (rx : Regexp) (anchorToStart : bool) (line : string) : option string :=
  match FindStringSubmatch rx line with
  | Some m =>
      if anchorToStart && negb (mstart m =? 0) then None
      else Some (captured rx line m)
  | None => None
  end.

(** Modelled from the spec: the captures of the matching lines, in stream
    order; the other lines are skipped. *)
Definition matches (rx : Regexp) (anchorToStart : bool) (data : string) : list string :=
  flat_map
    (fun line => match filterLine rx anchorToStart line with Some s => [s] | None => [] end)
    (lines data).

(** Modelled from the spec: the not-found outcome of [filterFirst], told
    apart from a read error. *)
Definition notFound (pattern : string) : error :=
  Errorf "couldn't find any line matching %s" [pattern].

(** Modelled from the spec: every matching line's capture in stream order;
    a read error discards what was gathered. *)
Definition filterAll (r : Reader) (pattern : string) : list string * option error :=
  match rerr r with
  | Some e => ([], Some e)
  | None => (matches (MustCompile pattern) false (rdata r), None)
  end.

(** Modelled from the spec: the first matching line's capture; when the
    stream ends without a match, the read error if there is one and the
    not-found error otherwise. *)
Definition filterFirst (r : Reader) (pattern : string) (anchorToStart : bool)
  : string * option error :=
  match matches (MustCompile pattern) anchorToStart (rdata r) with
  | s :: _ => (s, None)
  | [] =>
      match rerr r with
      | Some e => (EmptyString, Some e)
      | None => (EmptyString, Some (notFound pattern))
      end
  end.

End Filter.

(** Modelled from the spec: [convKBToGB] is defined in a file of the package
    that is not part of this development: the size token is parsed as an
    integer and divided by 1,048,576, with a float result. *)
Definition convKBToGB (s : string) : float * option error :=
  match GoStrconv.Atoi s with
  | Some v => (PrimFloat.div (GoStrconv.float64 v) (GoStrconv.float64 1048576), None)
  | None => (0%float, Some (Errorf "couldn't convert %s to integer" [s]))
  end.

(** ** The records the mappers build

    [gpuInfo], [screenInfo], [cpuInfo] and [Metrics] are declared in a file
    of the package that is not part of this development.  The fields are
    the ones [cmd.go] assigns and reads. *)

Module GPU.
(** Modelled from the spec: a GPU record is a vendor and a model. *)
Record gpuInfo : Type := mk { Vendor : string; Model : string }.
End GPU.

Module Screen.
(** Modelled from the spec: a screen record is a triple of strings: size,
    resolution and frequency. *)
Record screenInfo : Type := mk { Size : string; Resolution : string; Frequency : string }.
End Screen.

Module CPU.
(** Modelled from the spec: a CPU record holds, all as strings, the
    operating mode, the counts of CPUs, of threads per core, of cores per
    socket and of sockets, the vendor, family, model, stepping and model
    name, the virtualization flag, the hypervisor vendor and the
    virtualization type. *)
Record cpuInfo : Type := mk {
  OpMode : string;
  CPUs : string;
  Threads : string;
  Cores : string;
  Sockets : string;
  Vendor : string;
  Family : string;
  Model : string;
  Stepping : string;
  Name : string;
  Virtualization : string;
  Hypervisor : string;
  VirtualizationType : string
}.

(** [cpuInfo{}] *)
Definition zero : cpuInfo := mk "" "" "" "" "" "" "" "" "" "" "" "" "".
End CPU.

Import GPU Screen.

(** Modelled from the spec: each mapper is configured with a pre-built
    command, and the capability command may be missing.  These are the
    commands [cmd.go] runs; only [hwCapCmd] is tested for nil by the code. *)
Record Metrics : Type := mkMetrics {
  gpuInfoCmd : Cmd;
  cpuInfoCmd : Cmd;
  screenInfoCmd : Cmd;
  spaceInfoCmd : Cmd;
  hwCapCmd : option Cmd
}.

(** ** [runCmd], as its consumer sees it

    The stream yields the standard output of the process and then ends,
    with the wrapped error when [cmd.Run()] returned one.  [PipeModel]
    below has the goroutine and the pipe. *)

Definition runErrFormat : string := "'%s' return an error".

Definition closeError (cmd : Cmd) (err : error) : error :=
  Wrapf err runErrFormat (Args cmd).

Definition runCmd (cmd : Cmd) : Reader :=
  mkReader (Stdout cmd) (option_map (closeError cmd) (RunErr cmd)).

(** ** [getGPU] *)

Definition gpuPattern : string :=
  "^.* 0300: ([a-zA-Z0-9]+:[a-zA-Z0-9]+)( \(rev .*\))?$".

(** The body of [for _, gpuinfo := range results]. *)
Fixpoint gpuLoop (results : list string) (gpus : list gpuInfo) (log : Log)
  : list gpuInfo * Log :=
  match results with
  | [] => (gpus, log)
  | gpuinfo :: rest =>
      let i := GoStrings.SplitN gpuinfo ":" 2 in
      if negb (List.length i =? 2) then
        gpuLoop rest gpus
          (log ++ [Infof (Fmt "GPU info should of form vendor:model, got: %s")
                         [ArgString gpuinfo]])
      else
        gpuLoop rest (gpus ++ [GPU.mk (nth 0 i "") (nth 1 i "")]) log
  end.

Definition getGPU (m : Metrics) : list gpuInfo * Log :=
  let r := runCmd (gpuInfoCmd m) in
  match Filter.filterAll r gpuPattern with
  | (_, Some err) => ([], [Infof (FmtErrFormat "couldn't get GPU info: ") [ArgError err]])
  | (results, None) => gpuLoop results [] []
  end.

(** ** [populateCpuInfo] and [getCPU] *)

(** The [switch entry.Field] of [populateCpuInfo]. *)
Definition assignField (field data : string) (c : CPU.cpuInfo) : CPU.cpuInfo :=
  let 'CPU.mk opMode cpus threads cores sockets vendor family model stepping name
              virtualization hypervisor virtualizationType := c in
  if String.eqb field "CPU op-mode(s):" then
    CPU.mk data cpus threads cores sockets vendor family model stepping name
           virtualization hypervisor virtualizationType
  else if String.eqb field "CPU(s):" then
    CPU.mk opMode data threads cores sockets vendor family model stepping name
           virtualization hypervisor virtualizationType
  else if String.eqb field "Thread(s) per core:" then
    CPU.mk opMode cpus data cores sockets vendor family model stepping name
           virtualization hypervisor virtualizationType
  else if String.eqb field "Core(s) per socket:" then
    CPU.mk opMode cpus threads data sockets vendor family model stepping name
           virtualization hypervisor virtualizationType
  else if String.eqb field "Socket(s):" then
    CPU.mk opMode cpus threads cores data vendor family model stepping name
           virtualization hypervisor virtualizationType
  else if String.eqb field "Vendor ID:" then
    CPU.mk opMode cpus threads cores sockets data family model stepping name
           virtualization hypervisor virtualizationType
  else if String.eqb field "CPU family:" then
    CPU.mk opMode cpus threads cores sockets vendor data model stepping name
           virtualization hypervisor virtualizationType
  else if String.eqb field "Model:" then
    CPU.mk opMode cpus threads cores sockets vendor family data stepping name
           virtualization hypervisor virtualizationType
  else if String.eqb field "Stepping:" then
    CPU.mk opMode cpus threads cores sockets vendor family model data name
           virtualization hypervisor virtualizationType
  else if String.eqb field "Model name:" then
    CPU.mk opMode cpus threads cores sockets vendor family model stepping data
           virtualization hypervisor virtualizationType
  else if String.eqb field "Virtualization:" then
    CPU.mk opMode cpus threads cores sockets vendor family model stepping name
           data hypervisor virtualizationType
  else if String.eqb field "Hypervisor vendor:" then
    CPU.mk opMode cpus threads cores sockets vendor family model stepping name
           virtualization data virtualizationType
  else if String.eqb field "Virtualization type:" then
    CPU.mk opMode cpus threads cores sockets vendor family model stepping name
           virtualization hypervisor data
  else c.

(** One turn of the loop of [populateCpuInfo]: the switch, then the
    recursive call on the children when there are some.  The record behind
    the pointer [c] is passed in and handed back. *)
Fixpoint populateEntry (entry : LscpuEntry) (c : CPU.cpuInfo) : CPU.cpuInfo :=
  match entry with
  | mkEntry field data children =>
      let c := assignField field data c in
      if 0 <? List.length children then
        (fix loop (entries : list LscpuEntry) (c : CPU.cpuInfo) : CPU.cpuInfo :=
           match entries with
           | [] => c
           | e :: entries' => loop entries' (populateEntry e c)
           end) children c
      else c
  end.

Fixpoint populateCpuInfo (entries : list LscpuEntry) (c : CPU.cpuInfo) : CPU.cpuInfo :=
  match entries with
  | [] => c
  | entry :: entries' => populateCpuInfo entries' (populateEntry entry c)
  end.

(** The type assertion of [result] to a pointer to [Lscpu], in its
    two-value form. *)
Definition assertLscpu (result : iface) : option Lscpu * bool :=
  match result with
  | ptrLscpu p => (p, true)
  | _ => (None, false)
  end.

Definition nilDereference : string :=
  "runtime error: invalid memory address or nil pointer dereference".

Section GetCPU.

(** [parseJSON] is defined outside this file; [getCPU] is stated for any
    function of its type: the stream and the value to decode into go in,
    an [interface{}] and an error come out. *)
Variable parseJSON : Reader -> iface -> iface * option error.

Definition getCPU (m : Metrics) : outcome CPU.cpuInfo * Log :=
  let c := CPU.zero in
  let r := runCmd (cpuInfoCmd m) in
  match parseJSON r (ptrLscpu (Some (mkLscpu []))) with
  | (_, Some err) =>
      (Returns CPU.zero, [Infof (FmtErrFormat "Couldn't get CPU info: ") [ArgError err]])
  | (result, None) =>
      let (lscpu, ok) := assertLscpu result in
      let log :=
        if negb ok then
          [Infof (Fmt "Couldn't get CPU info, could not convert to a valid Lscpu struct: %v")
                 [ArgValue result]]
        else [] in
      match lscpu with
      | Some l => (Returns (populateCpuInfo (Lscpu_Lscpu l) c), log)
      | None => (Panics nilDereference, log)       (* lscpu.Lscpu on a nil pointer *)
      end
  end.

End GetCPU.

(** ** [getScreens] *)

Definition screenPattern : string :=
  "^(?: +(.*)\*|.* connected .* (\d+mm x \d+mm))".

Definition screenShapeLog (screeninfo : string) : logEntry :=
  Infof (Fmt "screen info should be either a screen physical size (connected) or a a resolution + freq, got: %s")
        [ArgString screeninfo].

Definition screenNoSizeLog : logEntry :=
  Infof (Fmt "We couldn't get physical info size prior to Resolution and Frequency information.") [].

(** The body of [for _, screeninfo := range results], with the local
    variable [lastSize]. *)
Fixpoint screenLoop (results : list string) (lastSize : string)
         (screens : list screenInfo) (log : Log) : list screenInfo * Log :=
  match results with
  | [] => (screens, log)
  | screeninfo :: rest =>
      if (GoStrings.Index screeninfo "mm" >? -1)%Z then
        screenLoop rest (GoStrings.Replace screeninfo " " "" (-1)) screens log
      else
        let i := GoStrings.Fields screeninfo in
        if List.length i <? 2 then
          screenLoop rest lastSize screens (log ++ [screenShapeLog screeninfo])
        else if String.eqb lastSize "" then
          screenLoop rest lastSize screens (log ++ [screenNoSizeLog])
        else
          screenLoop rest lastSize
            (screens ++ [Screen.mk lastSize (nth 0 i "") (nth (List.length i - 1) i "")]) log
  end.

Definition getScreens (m : Metrics) : list screenInfo * Log :=
  let r := runCmd (screenInfoCmd m) in
  match Filter.filterAll r screenPattern with
  | (_, Some err) => ([], [Infof (FmtErrFormat "couldn't get Screen info: ") [ArgError err]])
  | (results, None) => screenLoop results "" [] []
  end.

(** ** [getPartitions] *)

Definition partitionPattern : string := "^/dev/([^\s]+ +[^\s]*).*$".

Definition partitionShapeLog (size : string) : logEntry :=
  Infof (Fmt "partition size should be of form 'block device      size', got: %s")
        [ArgString size].

Definition partitionIntLog (err : error) : logEntry :=
  Infof (FmtErrFormat "partition size should be an integer: ") [ArgError err].

(** The body of [for _, size := range results]. *)
Fixpoint partitionLoop (results : list string) (sizes : list float) (log : Log)
  : list float * Log :=
  match results with
  | [] => (sizes, log)
  | size :: rest =>
      (* negative lookahead isn't supported in go, so exclude loop devices manually *)
      if GoStrings.HasPrefix size "loop" then partitionLoop rest sizes log
      else
        let s := GoStrings.Fields size in
        if negb (List.length s =? 2) then
          partitionLoop rest sizes (log ++ [partitionShapeLog size])
        else
          match convKBToGB (nth 1 s "") with
          | (_, Some err) => partitionLoop rest sizes (log ++ [partitionIntLog err])
          | (v, None) => partitionLoop rest (sizes ++ [v]) log
          end
  end.

Definition getPartitions (m : Metrics) : list float * Log :=
  let r := runCmd (spaceInfoCmd m) in
  match Filter.filterAll r partitionPattern with
  | (_, Some err) => ([], [Infof (FmtErrFormat "couldn't get Disk info: ") [ArgError err]])
  | (results, None) => partitionLoop results [] []
  end.

(** ** [getHwCap] *)

Definition hwCapBytes : string := "Subdirectories of glibc-hwcaps".
Definition legacyBytes : string := "Legacy HWCAP subdirectories".
Definition hwCapPattern : string := "^(?:(.*) +.*supported, searched.*)".

(** The buffer handed to [filterFirst]: [bytesSupported] after the
    statement [if legacyIndex >= 0 { bytesSupported = bytesSupported[0:legacyIndex] }]. *)
Definition searched (bytesSupported : string) : string :=
  let legacyIndex := GoStrings.Index bytesSupported legacyBytes in
  if (legacyIndex >=? 0)%Z then take (Z.to_nat legacyIndex) bytesSupported
  else bytesSupported.

Definition getHwCap (m : Metrics) : string * Log :=
  match hwCapCmd m with
  | None => ("", [])
  | Some cmd =>
      let rSupported := runCmd cmd in
      match ReadAll rSupported with
      | (_, Some err) => ("", [Infof (FmtErrFormat "Couldn't get hwcap: ") [ArgError err]])
      | (bytesSupported, None) =>
          let hwCapIndex := GoStrings.Index bytesSupported hwCapBytes in
          if (hwCapIndex <? 0)%Z then ("", [])
          else
            let newSupported := NewReader (searched bytesSupported) in
            match Filter.filterFirst newSupported hwCapPattern false with
            | (_, Some err) => ("-", [Infof (FmtErrFormat "No supported hwcap: ") [ArgError err]])
            | (resultSupported, None) => (resultSupported, [])
            end
      end
  end.

(** ** [runCmd]: the goroutine and the pipe

    [runCmd] makes an [io.Pipe], gives its write end to the command as
    standard output, starts a goroutine and returns the read end.  The
    goroutine calls [cmd.Run()], which returns once the process has exited
    and all its output has been written to the pipe, and then closes the
    write end, with the wrapped error if [Run] returned one.  A write to an
    [io.Pipe] completes only when readers have taken its bytes. *)

Module PipeModel.

(** The goroutine [go func() { ... }()]. *)
Inductive goroutine : Type :=
| Running (pending : string)        (* in [cmd.Run()]; output still to hand over *)
| Returned (err : option error)     (* [err := cmd.Run()] done *)
| Finished.                         (* the write end is closed *)

(** The write end [pw]. *)
Inductive writeEnd : Type :=
| Open
| Closed (err : option error).      (* [pw.Close()] / [pw.CloseWithError(err)] *)

(** The goroutine, the pipe and the consumer of the read end: the bytes it
    has read, and how its stream ended once it has. *)
Record state : Type := mkState {
  gor : goroutine;
  pw : writeEnd;
  got : string;
  ended : option (option error)
}.

(** The state in which [runCmd] returns [pr]. *)
Definition start (cmd : Cmd) : state :=
  mkState (Running (Stdout cmd)) Open "" None.

Inductive step (cmd : Cmd) : state -> state -> Prop :=
| step_read (n : nat) (pending got : string) :
    0 < n -> n <= String.length pending ->
    step cmd (mkState (Running pending) Open got None)
             (mkState (Running (drop n pending)) Open (got ++ take n pending) None)
| step_return (got : string) :
    step cmd (mkState (Running "") Open got None)
             (mkState (Returned (RunErr cmd)) Open got None)
| step_close_error (err : error) (got : string) :
    step cmd (mkState (Returned (Some err)) Open got None)
             (mkState Finished (Closed (Some (Wrapf err "'%s' return an error" (Args cmd)))) got None)
| step_close (got : string) :
    step cmd (mkState (Returned None) Open got None)
             (mkState Finished (Closed None) got None)
| step_end (g : goroutine) (err : option error) (got : string) :
    step cmd (mkState g (Closed err) got None)
             (mkState g (Closed err) got (Some err)).

Inductive steps (cmd : Cmd) : state -> state -> Prop :=
| steps_refl (s : state) : steps cmd s s
| steps_step (s1 s2 s3 : state) : step cmd s1 s2 -> steps cmd s2 s3 -> steps cmd s1 s3.

(** The states of a run of [runCmd cmd] and its consumer. *)
Definition reachable (cmd : Cmd) (s : state) : Prop := steps cmd (start cmd) s.

(** The number of steps a state is away from the end of the stream, at most. *)
Definition measure (s : state) : nat :=
  match ended s with
  | Some _ => 0
  | None =>
      match pw s with
      | Closed _ => 1
      | Open =>
          match gor s with
          | Running pending => 3 + String.length pending
          | Returned _ => 2
          | Finished => 0
          end
      end
  end.

End PipeModel.

(** ** The mappers, entry by entry

    What the loops of the mappers do to one filtered line, written after
    the description of each mapper; the theorems relate them to the loops. *)

(** The entries of a tree in depth-first order: an entry, then the entries
    below it, then the entries after it. *)
Fixpoint visitEntry (entry : LscpuEntry) : list (string * string) :=
  match entry with
  | mkEntry field data children => (field, data) :: flat_map visitEntry children
  end.

Definition visitOrder (entries : list LscpuEntry) : list (string * string) :=
  flat_map visitEntry entries.

Inductive cpuField : Type :=
| FOpMode | FCPUs | FThreads | FCores | FSockets | FVendor | FFamily | FModel
| FStepping | FName | FVirtualization | FHypervisor | FVirtualizationType.

Definition label (k : cpuField) : string :=
  match k with
  | FOpMode => "CPU op-mode(s):"
  | FCPUs => "CPU(s):"
  | FThreads => "Thread(s) per core:"
  | FCores => "Core(s) per socket:"
  | FSockets => "Socket(s):"
  | FVendor => "Vendor ID:"
  | FFamily => "CPU family:"
  | FModel => "Model:"
  | FStepping => "Stepping:"
  | FName => "Model name:"
  | FVirtualization => "Virtualization:"
  | FHypervisor => "Hypervisor vendor:"
  | FVirtualizationType => "Virtualization type:"
  end.

Definition get (k : cpuField) (c : CPU.cpuInfo) : string :=
  match k with
  | FOpMode => CPU.OpMode c
  | FCPUs => CPU.CPUs c
  | FThreads => CPU.Threads c
  | FCores => CPU.Cores c
  | FSockets => CPU.Sockets c
  | FVendor => CPU.Vendor c
  | FFamily => CPU.Family c
  | FModel => CPU.Model c
  | FStepping => CPU.Stepping c
  | FName => CPU.Name c
  | FVirtualization => CPU.Virtualization c
  | FHypervisor => CPU.Hypervisor c
  | FVirtualizationType => CPU.VirtualizationType c
  end.

(** The data of the last entry labelled [field] in a visit order. *)
Fixpoint lastData (field : string) (visited : list (string * string)) : option string :=
  match visited with
  | [] => None
  | (f, d) :: rest =>
      match lastData field rest with
      | Some d' => Some d'
      | None => if String.eqb f field then Some d else None
      end
  end.

(** GPU: a captured string with a colon gives the text before its first
    colon and the text after it; one without is logged. *)
Definition gpuOf (gpuinfo : string) : list gpuInfo :=
  match GoStrings.index_nat gpuinfo ":" with
  | Some i => [GPU.mk (take i gpuinfo) (drop (S i) gpuinfo)]
  | None => []
  end.

Definition gpuLogOf (gpuinfo : string) : Log :=
  match GoStrings.index_nat gpuinfo ":" with
  | Some _ => []
  | None => [Infof (Fmt "GPU info should of form vendor:model, got: %s") [ArgString gpuinfo]]
  end.

(** Partitions: an entry that starts with "loop" gives nothing; one that has
    not exactly two fields, or whose second field is no integer, is logged;
    any other gives its kilobytes divided by 1,048,576. *)
Definition partitionOf (size : string) : list float :=
  if String.prefix "loop" size then []
  else match GoStrings.Fields size with
       | [_; kb] =>
           match GoStrconv.Atoi kb with
           | Some v => [PrimFloat.div (GoStrconv.float64 v) 1048576%float]
           | None => []
           end
       | _ => []
       end.

Definition partitionLogOf (size : string) : Log :=
  if String.prefix "loop" size then []
  else match GoStrings.Fields size with
       | [_; kb] =>
           match GoStrconv.Atoi kb with
           | Some _ => []
           | None => [partitionIntLog (Errorf "couldn't convert %s to integer" [kb])]
           end
       | _ => [partitionShapeLog size]
       end.

(** Screens: a line is a size line when it contains "mm". *)
Definition isSizeLine (screeninfo : string) : bool :=
  match GoStrings.index_nat screeninfo "mm" with
  | Some _ => true
  | None => false
  end.

Fixpoint stripSpaces (s : string) : string :=
  match s with
  | EmptyString => EmptyString
  | String c s' => if Ascii.eqb c " " then stripSpaces s' else String c (stripSpaces s')
  end.

(** The most recent physical size after the lines [seen]: the last size
    line of [seen] without its spaces, or nothing. *)
Fixpoint recentSize (seen : list string) : option string :=
  match seen with
  | [] => None
  | line :: seen' =>
      match recentSize seen' with
      | Some size => Some size
      | None => if isSizeLine line then Some (stripSpaces line) else None
      end
  end.

(** What a line gives after the lines [seen]. *)
Definition screenOf (seen : list string) (screeninfo : string) : list screenInfo :=
  if isSizeLine screeninfo then []
  else
    let tokens := GoStrings.Fields screeninfo in
    if List.length tokens <? 2 then []
    else match recentSize seen with
         | Some size => [Screen.mk size (hd "" tokens) (last tokens "")]
         | None => []
         end.

Definition screenLogOf (seen : list string) (screeninfo : string) : Log :=
  if isSizeLine screeninfo then []
  else if List.length (GoStrings.Fields screeninfo) <? 2 then [screenShapeLog screeninfo]
  else match recentSize seen with
       | Some _ => []
       | None => [screenNoSizeLog]
       end.

Fixpoint screensFrom (seen rest : list string) : list screenInfo :=
  match rest with
  | [] => []
  | line :: rest' => screenOf seen line ++ screensFrom (seen ++ [line]) rest'
  end.

Fixpoint screenLogsFrom (seen rest : list string) : Log :=
  match rest with
  | [] => []
  | line :: rest' => screenLogOf seen line ++ screenLogsFrom (seen ++ [line]) rest'
  end.

(** ** Auxiliary definitions for the statements *)

Section LscpuEntry_induction.

Variable P : LscpuEntry -> Prop.
Hypothesis step : forall field data children,
  Forall P children -> P (mkEntry field data children).

Fixpoint LscpuEntry_nested_ind (entry : LscpuEntry) : P entry :=
  match entry with
  | mkEntry field data children =>
      step field data children
        ((fix all (l : list LscpuEntry) : Forall P l :=
            match l with
            | [] => Forall_nil P
            | e :: l' => Forall_cons e (LscpuEntry_nested_ind e) (all l')
            end) children)
  end.

End LscpuEntry_induction.

Definition assign (c : CPU.cpuInfo) (fd : string * string) : CPU.cpuInfo :=
  assignField (fst fd) (snd fd) c.

Definition someCmd (out : string) : Cmd := mkCmd ["cmd"] out None.

Definition someMetrics (out : string) : Metrics :=
  mkMetrics (someCmd out) (someCmd out) (someCmd out) (someCmd out) (Some (someCmd out)).

Definition sizeOr (o : option string) : string :=
  match o with
  | Some s => s
  | None => ""
  end.

Definition line (s : string) : string := (s ++ String LF "")%string.

Definition gpuErrLog (err : error) : Log :=
  [Infof (FmtErrFormat "couldn't get GPU info: ") [ArgError err]].

Definition partitionErrLog (err : error) : Log :=
  [Infof (FmtErrFormat "couldn't get Disk info: ") [ArgError err]].

Definition screenErrLog (err : error) : Log :=
  [Infof (FmtErrFormat "couldn't get Screen info: ") [ArgError err]].

Definition xrandrSize : string :=
  "HDMI-1 connected primary 1920x1080+0+0 (normal left inverted right x axis y axis) 510mm x 290mm".

Definition xrandrMode : string := "   1920x1080     60.00*+  59.94".

(** The texts a pattern matches, captures and anchors aside. *)
Inductive lang : Regexp.re -> string -> Prop :=
| lang_eps : lang Regexp.Eps ""
| lang_chr k c : Regexp.cset_mem k c = true -> lang (Regexp.Chr k) (String c "")
| lang_seq a b x y : lang a x -> lang b y -> lang (Regexp.Seq a b) (x ++ y)
| lang_alt_l a b x : lang a x -> lang (Regexp.Alt a b) x
| lang_alt_r a b x : lang b x -> lang (Regexp.Alt a b) x
| lang_star_nil a : lang (Regexp.Star a) ""
| lang_star_cons a x y : lang a x -> lang (Regexp.Star a) y -> lang (Regexp.Star a) (x ++ y)
| lang_grp i a x : lang a x -> lang (Regexp.Grp i a) x
| lang_bol : lang Regexp.Bol ""
| lang_eol : lang Regexp.Eol "".

(** A pattern without [$]. *)
Fixpoint noEol (r : Regexp.re) : bool :=
  match r with
  | Regexp.Eol => false
  | Regexp.Seq a b | Regexp.Alt a b => noEol a && noEol b
  | Regexp.Star a | Regexp.Grp _ a => noEol a
  | _ => true
  end.

(** Every match of the pattern goes through group [i]. *)
Fixpoint sets (i : nat) (r : Regexp.re) : bool :=
  match r with
  | Regexp.Grp j a => (j =? i) || sets i a
  | Regexp.Seq a b => sets i a || sets i b
  | Regexp.Alt a b => sets i a && sets i b
  | _ => false
  end.

(** Every text group [i] of the pattern can match satisfies [P]. *)
Fixpoint groupTexts (P : string -> Prop) (i : nat) (r : Regexp.re) : Prop :=
  match r with
  | Regexp.Grp j a => (j = i -> forall x, lang a x -> P x) /\ groupTexts P i a
  | Regexp.Seq a b | Regexp.Alt a b => groupTexts P i a /\ groupTexts P i b
  | Regexp.Star a => groupTexts P i a
  | _ => True
  end.

(** The thread [t] over a text that goes on with [y]. *)
Definition extend (y : string) (t : Regexp.thread) : Regexp.thread :=
  (Regexp.caps_of t, Regexp.pos_of t, (Regexp.rest_of t ++ y)%string).

Definition hasColon (s : string) : Prop := GoStrings.index_nat s ":" <> None.

(** What a thread has read between [t] and [t']. *)
Definition reads (t t' : Regexp.thread) (x : string) : Prop :=
  Regexp.rest_of t = (x ++ Regexp.rest_of t')%string
  /\ Regexp.pos_of t' = Regexp.pos_of t + String.length x.

(** The capture of group [i], if there is one, satisfies [P]. *)
Definition capOK (P : string -> Prop) (i : nat) (c : Regexp.caps) : Prop :=
  forall g, Regexp.lookup i c = Some g -> P g.

(** The record [getGPU] makes of a filtered string. *)
Definition splitGPU (gpuinfo : string) : gpuInfo :=
  GPU.mk (nth 0 (GoStrings.SplitN gpuinfo ":" 2) "")
         (nth 1 (GoStrings.SplitN gpuinfo ":" 2) "").

(** [l'] goes on from [l]. *)
Definition goesOn (l l' : string) : Prop := exists x, l' = (l ++ x)%string.

(** What [getHwCap] returns for the result of [filterFirst]. *)
Definition hwCapResult (found : string * option error) : string * Log :=
  match found with
  | (_, Some err) => ("-", [Infof (FmtErrFormat "No supported hwcap: ") [ArgError err]])
  | (resultSupported, None) => (resultSupported, [])
  end.

Definition ldsoGlibc : string :=
  "Subdirectories of glibc-hwcaps directories, in priority order:".

Definition ldsoLegacy : string :=
  "Legacy HWCAP subdirectories under library search path directories:".

Definition ldsoV3 : string := "  x86-64-v3 (supported, searched)".

Definition ldsoV4 : string := "  x86-64-v4".

Definition ldsoHaswell : string := "  haswell (AT_PLATFORM; supported, searched)".

(** An output with the legacy marker before the glibc-hwcaps marker. *)
Definition legacyFirst : string :=
  (line "Legacy HWCAP subdirectories" ++ line "Subdirectories of glibc-hwcaps"
   ++ line ldsoV3)%string.

(** What holds of every state of a run of [runCmd cmd]. *)
Definition pipeInv (cmd : Cmd) (s : PipeModel.state) : Prop :=
  match PipeModel.ended s with
  | Some r =>
      PipeModel.got s = Stdout cmd /\ r = rerr (runCmd cmd) /\ PipeModel.pw s = PipeModel.Closed r
  | None =>
      match PipeModel.pw s with
      | PipeModel.Closed r => PipeModel.got s = Stdout cmd /\ r = rerr (runCmd cmd)
      | PipeModel.Open =>
          match PipeModel.gor s with
          | PipeModel.Running pending => Stdout cmd = (PipeModel.got s ++ pending)%string
          | PipeModel.Returned err => PipeModel.got s = Stdout cmd /\ err = RunErr cmd
          | PipeModel.Finished => False
          end
      end
  end.

(** A command that writes two bytes and exits with status 1. *)
Definition failingCmd : Cmd := mkCmd ["lspci"; "-n"] "ab" (Some (OSError "exit status 1")).

(** ** Further definitions for the statements *)

(** A visited pair as an entry without children. *)
Definition leaf (fd : string * string) : LscpuEntry := mkEntry (fst fd) (snd fd) [].

(** A GPU record written back as vendor:model. *)
Definition joinGPU (g : gpuInfo) : string :=
  (GPU.Vendor g ++ ":" ++ GPU.Model g)%string.

Definition hasColonb (s : string) : bool :=
  match GoStrings.index_nat s ":" with
  | Some _ => true
  | None => false
  end.

Definition gpuFormLog (gpuinfo : string) : logEntry :=
  Infof (Fmt "GPU info should of form vendor:model, got: %s") [ArgString gpuinfo].

(** A filtered line of the display listing that is no size line. *)
Definition isModeLine (screeninfo : string) : bool := negb (isSizeLine screeninfo).

(** What [getScreens] logs for a line that is no size line when no size
    line came before. *)
Definition screenLogAlone (screeninfo : string) : logEntry :=
  if List.length (GoStrings.Fields screeninfo) <? 2 then screenShapeLog screeninfo
  else screenNoSizeLog.

(** A string without the byte 32. *)
Definition noSpace (s : string) : Prop := GoStrings.index_nat s " " = None.

(** A filtered entry of the disk listing that does not start with "loop". *)
Definition nonLoop (size : string) : bool := negb (GoStrings.HasPrefix size "loop").

(** The loop of [getPartitions] for any conversion function in the place
    of [convKBToGB], which is defined outside [cmd.go]. *)
Fixpoint partitionLoopWith (conv : string -> float * option error)
         (results : list string) (sizes : list float) (log : Log) : list float * Log :=
  match results with
  | [] => (sizes, log)
  | size :: rest =>
      if GoStrings.HasPrefix size "loop" then partitionLoopWith conv rest sizes log
      else
        let s := GoStrings.Fields size in
        if negb (List.length s =? 2) then
          partitionLoopWith conv rest sizes (log ++ [partitionShapeLog size])
        else
          match conv (nth 1 s "") with
          | (_, Some err) => partitionLoopWith conv rest sizes (log ++ [partitionIntLog err])
          | (v, None) => partitionLoopWith conv rest (sizes ++ [v]) log
          end
  end.

(** What [getHwCap] logs when reading the output of the command fails. *)
Definition hwCapReadLog (err : error) : Log :=
  [Infof (FmtErrFormat "Couldn't get hwcap: ") [ArgError err]].

(** Runs of a given number of steps. *)
Inductive stepsN (cmd : Cmd) : nat -> PipeModel.state -> PipeModel.state -> Prop :=
| stepsN_refl (s : PipeModel.state) : stepsN cmd 0 s s
| stepsN_step (n : nat) (s1 s2 s3 : PipeModel.state) :
    PipeModel.step cmd s1 s2 -> stepsN cmd n s2 s3 -> stepsN cmd (S n) s1 s3.

(** ** [getArch]

    [strings.TrimSpace] cuts the white-space runes ([unicode.IsSpace]) off
    both ends of a string: first the leading ones, rune by rune, then the
    trailing ones. *)

Module GoTrim.

(** The leading white-space runes cut off; a string has no more runes than
    bytes. *)
Fixpoint trimLeft_go (fuel : nat) (s : string) : string :=
  match fuel with
  | O => s
  | S fuel' =>
      match GoStrings.spaceWidth s with
      | O => s
      | S k => trimLeft_go fuel' (drop (S k) s)
      end
  end.

Definition TrimLeftSpace (s : string) : string := trimLeft_go (String.length s) s.

(** [s] is made of white-space runes only. *)
Fixpoint isSpaces_go (fuel : nat) (s : string) : bool :=
  match s with
  | EmptyString => true
  | _ =>
      match fuel with
      | O => false
      | S fuel' =>
          match GoStrings.spaceWidth s with
          | O => false
          | S k => isSpaces_go fuel' (drop (S k) s)
          end
      end
  end.

Definition isSpaces (s : string) : bool := isSpaces_go (String.length s) s.

(** The longest end of [s] made of white-space runes cut off. *)
Fixpoint TrimRightSpace (s : string) : string :=
  match s with
  | EmptyString => EmptyString
  | String c s' => if isSpaces s then EmptyString else String c (TrimRightSpace s')
  end.

(** [strings.TrimSpace(s)]. *)
Definition TrimSpace (s : string) : string := TrimRightSpace (TrimLeftSpace s).

End GoTrim.

(** The command of [getArch] with the behaviour of its process as
    [CombinedOutput] reports it: what the process wrote to its standard
    output and standard error, and the error of the run. *)
Record ArchCmd : Type := mkArchCmd {
  archArgs : list string;
  archOutput : string;
  archErr : option error
}.

(** [cmd.CombinedOutput()]. *)
Definition CombinedOutput (cmd : ArchCmd) : string * option error :=
  (archOutput cmd, archErr cmd).

Definition archLog (err : error) : Log :=
  [Infof (FmtErrFormat "couldn't get Architecture: ") [ArgError err]].

(** [getArch] reads one field of its receiver, [m.archCmd], which is its
    argument here. *)
Definition getArch (archCmd : ArchCmd) : string * Log :=
  match CombinedOutput archCmd with
  | (_, Some err) => ("", archLog err)
  | (b, None) => (GoTrim.TrimSpace b, [])
  end.

(** Strings made of white-space runes only. *)
Inductive Spaces : string -> Prop :=
| Spaces_nil : Spaces ""
| Spaces_rune (s : string) (k : nat) :
    GoStrings.spaceWidth s = S k -> Spaces (drop (S k) s) -> Spaces s.

(** The white-space runes of one, two and three bytes. *)
Definition space1 (c1 : ascii) : bool :=
  let b1 := nat_of_ascii c1 in ((9 <=? b1) && (b1 <=? 13)) || (b1 =? 32).

Definition space2 (c1 c2 : ascii) : bool :=
  let b1 := nat_of_ascii c1 in
  let b2 := nat_of_ascii c2 in
  (b1 =? 194) && ((b2 =? 133) || (b2 =? 160)).

Definition space3 (c1 c2 c3 : ascii) : bool :=
  let b1 := nat_of_ascii c1 in
  let b2 := nat_of_ascii c2 in
  let b3 := nat_of_ascii c3 in
  ((b1 =? 225) && (b2 =? 154) && (b3 =? 128))
  || ((b1 =? 226) && (b2 =? 128)
      && (((128 <=? b3) && (b3 <=? 138)) || (b3 =? 168) || (b3 =? 169) || (b3 =? 175)))
  || ((b1 =? 226) && (b2 =? 129) && (b3 =? 159))
  || ((b1 =? 227) && (b2 =? 128) && (b3 =? 128)).

(** The pattern has a group [i]. *)
Fixpoint hasGroup (i : nat) (r : Regexp.re) : bool :=
  match r with
  | Regexp.Grp j a => (j =? i) || hasGroup i a
  | Regexp.Seq a b | Regexp.Alt a b => hasGroup i a || hasGroup i b
  | Regexp.Star a => hasGroup i a
  | _ => false
  end.

(** No class of the pattern has the space in it. *)
Fixpoint spaceFree (r : Regexp.re) : bool :=
  match r with
  | Regexp.Chr k => negb (Regexp.cset_mem k " ")
  | Regexp.Seq a b | Regexp.Alt a b => spaceFree a && spaceFree b
  | Regexp.Star a | Regexp.Grp _ a => spaceFree a
  | _ => true
  end.

(** * Theorems *)

(** ** The CPU field walk *)





Lemma populateEntry_unfold field data children c :
  populateEntry (mkEntry field data children) c =
  fold_left (fun c e => populateEntry e c) children (assignField field data c).
Proof.
  assert (L : forall l c0,
             (fix loop (entries : list LscpuEntry) (c : CPU.cpuInfo) : CPU.cpuInfo :=
                match entries with
                | [] => c
                | e :: entries' => loop entries' (populateEntry e c)
                end) l c0 = fold_left (fun c e => populateEntry e c) l c0).
  { induction l as [|x l IH]; intros c0; [reflexivity|]. cbn [fold_left]. apply IH. }
  cbn [populateEntry]. rewrite L.
  destruct children; reflexivity.
Qed.

Lemma populateCpuInfo_fold entries c :
  populateCpuInfo entries c = fold_left (fun c e => populateEntry e c) entries c.
Proof.
  revert c. induction entries as [|e entries IH]; intros c; [reflexivity|].
  cbn [populateCpuInfo fold_left]. apply IH.
Qed.

Lemma populateEntry_visit entry :
  forall c, populateEntry entry c = fold_left assign (visitEntry entry) c.
Proof.
  induction entry as [field data children IH] using LscpuEntry_nested_ind.
  intros c. rewrite populateEntry_unfold.
  cbn [visitEntry fold_left]. unfold assign at 2. cbn [fst snd].
  generalize (assignField field data c). clear c.
  induction IH as [|e children He _ IHc]; intros c; [reflexivity|].
  cbn [fold_left flat_map]. rewrite fold_left_app, <- He. apply IHc.
Qed.

Lemma populateCpuInfo_visit entries c :
  populateCpuInfo entries c = fold_left assign (visitOrder entries) c.
Proof.
  revert c. induction entries as [|e entries IH]; intros c; [reflexivity|].
  cbn [populateCpuInfo]. unfold visitOrder. cbn [flat_map].
  rewrite fold_left_app, <- populateEntry_visit. apply IH.
Qed.

Ltac split_label f :=
  repeat match goal with
         | |- context [String.eqb f ?s] =>
             destruct (String.eqb_spec f s); [subst f; try reflexivity|]
         end.

Lemma get_assignField k field data c :
  get k (assignField field data c) =
  if String.eqb field (label k) then data else get k c.
Proof.
  destruct c; destruct k; unfold assignField; cbn [label get];
    split_label field; reflexivity.
Qed.

Lemma cpuInfo_ext c1 c2 : (forall k, get k c1 = get k c2) -> c1 = c2.
Proof.
  intros H. destruct c1, c2.
  pose proof (H FOpMode). pose proof (H FCPUs). pose proof (H FThreads).
  pose proof (H FCores). pose proof (H FSockets). pose proof (H FVendor).
  pose proof (H FFamily). pose proof (H FModel). pose proof (H FStepping).
  pose proof (H FName). pose proof (H FVirtualization). pose proof (H FHypervisor).
  pose proof (H FVirtualizationType).
  cbn in *. congruence.
Qed.

Lemma assignField_unknown field data c :
  (forall k, field <> label k) -> assignField field data c = c.
Proof.
  intros H. apply cpuInfo_ext. intros k. rewrite get_assignField.
  destruct (String.eqb_spec field (label k)) as [E|E]; [destruct (H k E)|reflexivity].
Qed.

Lemma get_fold_assign k visited :
  forall c, get k (fold_left assign visited c) =
            match lastData (label k) visited with
            | Some d => d
            | None => get k c
            end.
Proof.
  induction visited as [|[f d] rest IH]; intros c; [reflexivity|].
  cbn [fold_left lastData]. rewrite IH.
  destruct (lastData (label k) rest); [reflexivity|].
  unfold assign. cbn [fst snd]. rewrite get_assignField.
  destruct (String.eqb f (label k)); reflexivity.
Qed.

(** C3. The walk of [populateCpuInfo] is the depth-first one: it assigns the
    entries in the order [visitOrder] lists them, an entry before the
    entries below it and those before the entries after it, at every depth;
    each known field ends up with the data of the last visited entry that
    carries its label (or keeps its value when there is none), and an entry
    with an unknown label changes nothing. *)
Theorem populateCpuInfo_depth_first_last_write_wins :
  forall (entries : list LscpuEntry) (c : CPU.cpuInfo),
    populateCpuInfo entries c = fold_left assign (visitOrder entries) c
    /\ (forall field data children rest,
           visitOrder (mkEntry field data children :: rest) =
           (field, data) :: visitOrder children ++ visitOrder rest)
    /\ (forall k,
           get k (populateCpuInfo entries c) =
           match lastData (label k) (visitOrder entries) with
           | Some d => d
           | None => get k c
           end)
    /\ (forall field data c',
           (forall k, field <> label k) -> assignField field data c' = c').
Proof.
  intros entries c. split; [apply populateCpuInfo_visit|].
  split; [intros; reflexivity|].
  split.
  - intros k. rewrite populateCpuInfo_visit. apply get_fold_assign.
  - intros. now apply assignField_unknown.
Qed.

(** A child repeats the label of its parent: the child, visited last, wins;
    a later sibling of the parent wins over both. *)
Example populateCpuInfo_child_after_parent :
  CPU.Model
    (populateCpuInfo
       [mkEntry "Model:" "parent" [mkEntry "Model:" "child" []]] CPU.zero) = "child"
  /\ CPU.Model
       (populateCpuInfo
          [mkEntry "Model:" "parent" [mkEntry "other" "x" [mkEntry "Model:" "deep" []]];
           mkEntry "Model:" "sibling" []] CPU.zero) = "sibling".
Proof. split; reflexivity. Qed.

(** ** [getCPU] *)

(** When [parseJSON] reports an error, [getCPU] returns the zero record. *)
Lemma getCPU_parse_error parseJSON m result err :
  parseJSON (runCmd (cpuInfoCmd m)) (ptrLscpu (Some (mkLscpu []))) = (result, Some err) ->
  fst (getCPU parseJSON m) = Returns CPU.zero.
Proof. intros H. unfold getCPU. rewrite H. reflexivity. Qed.

(** C1. When [parseJSON] reports no error and hands back a value that is not
    a pointer to [Lscpu], [getCPU] logs that it could not convert the value
    and goes on to read [lscpu.Lscpu] through the nil pointer: it panics
    instead of returning the zero record. *)
Theorem getCPU_conversion_failure_panics :
  forall parseJSON m shown,
    parseJSON (runCmd (cpuInfoCmd m)) (ptrLscpu (Some (mkLscpu []))) =
      (otherValue shown, None) ->
    getCPU parseJSON m =
      (Panics nilDereference,
       [Infof (Fmt "Couldn't get CPU info, could not convert to a valid Lscpu struct: %v")
              [ArgValue (otherValue shown)]]).
Proof. intros parseJSON m shown H. unfold getCPU. rewrite H. reflexivity. Qed.



Lemma getCPU_conversion_failure_panics_witness :
  getCPU (fun _ _ => (otherValue "{}", None)) (someMetrics "{}") =
    (Panics nilDereference,
     [Infof (Fmt "Couldn't get CPU info, could not convert to a valid Lscpu struct: %v")
            [ArgValue (otherValue "{}")]]).
Proof.
  apply (getCPU_conversion_failure_panics (fun _ _ => (otherValue "{}", None))
           (someMetrics "{}") "{}").
  reflexivity.
Defined.

(** ** Facts about the string functions *)

Lemma prefix_char a c s :
  String.prefix (String a "") (String c s) = Ascii.eqb c a.
Proof.
  cbn [String.prefix].
  destruct (ascii_dec a c) as [E|E]; destruct (Ascii.eqb_spec c a) as [F|F];
    try reflexivity; try congruence; destruct s; reflexivity.
Qed.

Lemma splitN_go_one fuel s sep : GoStrings.splitN_go fuel s sep 1 = [s].
Proof. destruct fuel; reflexivity. Qed.

Lemma SplitN_colon s :
  GoStrings.SplitN s ":" 2 =
  match GoStrings.index_nat s ":" with
  | Some i => [take i s; drop (S i) s]
  | None => [s]
  end.
Proof.
  unfold GoStrings.SplitN. cbn [Z.eqb Pos.eqb GoStrings.splitN_go].
  destruct (GoStrings.index_nat s ":") as [i|]; [|reflexivity].
  change (2 - 1)%Z with 1%Z. rewrite splitN_go_one.
  cbn [String.length]. now rewrite Nat.add_1_r.
Qed.

Lemma prefix_split sub t :
  String.prefix sub t = true -> t = (sub ++ drop (String.length sub) t)%string.
Proof.
  revert t. induction sub as [|a sub IH]; intros t H; [now destruct t|].
  destruct t as [|c t]; [discriminate|]. cbn in H.
  destruct (ascii_dec a c) as [<-|]; [|discriminate].
  cbn. f_equal. now apply IH.
Qed.

Lemma index_nat_at s sub i :
  GoStrings.index_nat s sub = Some i ->
  s = (take i s ++ sub ++ drop (i + String.length sub) s)%string.
Proof.
  revert i. induction s as [|c s IH]; intros i.
  - cbn [GoStrings.index_nat]. destruct (String.prefix sub "") eqn:P; [|discriminate].
    intros [= <-]. now apply prefix_split in P.
  - cbn [GoStrings.index_nat]. destruct (String.prefix sub (String c s)) eqn:P.
    + intros [= <-]. now apply prefix_split in P.
    + destruct (GoStrings.index_nat s sub) as [j|]; [|discriminate].
      intros [= <-]. cbn. f_equal. now apply IH.
Qed.

Lemma index_nat_first s a i :
  GoStrings.index_nat s (String a "") = Some i ->
  GoStrings.index_nat (take i s) (String a "") = None.
Proof.
  revert i. induction s as [|c s IH]; intros i; [discriminate|].
  cbn [GoStrings.index_nat]. rewrite prefix_char.
  destruct (Ascii.eqb c a) eqn:E; [intros [= <-]; reflexivity|].
  destruct (GoStrings.index_nat s (String a "")) as [j|] eqn:F; [|discriminate].
  intros [= <-]. cbn [take GoStrings.index_nat]. rewrite prefix_char, E.
  now rewrite (IH j eq_refl).
Qed.

Lemma Index_found s substr :
  (GoStrings.Index s substr >? -1)%Z =
  match GoStrings.index_nat s substr with Some _ => true | None => false end.
Proof.
  unfold GoStrings.Index. destruct (GoStrings.index_nat s substr); [|reflexivity].
  apply Z.gtb_lt. lia.
Qed.

Lemma replace_go_space n s :
  (n < 0)%Z -> GoStrings.replace_go 0 " " "" n s = stripSpaces s.
Proof.
  revert n. induction s as [|c s IH]; intros n Hn; [reflexivity|].
  cbn [GoStrings.replace_go stripSpaces].
  destruct (Z.eqb_spec n 0); [lia|].
  rewrite prefix_char. cbn [String.length Nat.sub].
  destruct (Ascii.eqb c " ").
  - cbn [String.append]. apply IH. lia.
  - f_equal. now apply IH.
Qed.

Lemma Replace_spaces s : GoStrings.Replace s " " "" (-1) = stripSpaces s.
Proof. apply replace_go_space. lia. Qed.

Lemma index_nat_cons c s substr :
  GoStrings.index_nat (String c s) substr =
  if String.prefix substr (String c s) then Some 0
  else option_map S (GoStrings.index_nat s substr).
Proof. reflexivity. Qed.

Lemma stripSpaces_sizeLine s : isSizeLine s = true -> stripSpaces s <> "".
Proof.
  unfold isSizeLine. induction s as [|c s IH].
  - cbn. discriminate.
  - rewrite index_nat_cons. cbn [stripSpaces].
    destruct (String.prefix "mm" (String c s)) eqn:P.
    + intros _. cbn [String.prefix] in P.
      destruct (ascii_dec "m" c) as [<-|]; [|discriminate]. cbn. discriminate.
    + intros H. destruct (GoStrings.index_nat s "mm"); [|discriminate].
      specialize (IH eq_refl). destruct (Ascii.eqb c " "); [exact IH|discriminate].
Qed.

Lemma nth_last_index (l : list string) d : nth (List.length l - 1) l d = last l d.
Proof.
  induction l as [|x l IH]; [reflexivity|].
  destruct l as [|y l]; [reflexivity|].
  cbn [List.length Nat.sub] in *. rewrite Nat.sub_0_r in IH.
  cbn [nth last] in *. exact IH.
Qed.

Lemma nth_0_hd (l : list string) d : nth 0 l d = hd d l.
Proof. destruct l; reflexivity. Qed.

(** ** The GPU mapper *)

Lemma gpuLoop_spec results :
  forall gpus log,
    gpuLoop results gpus log =
    (gpus ++ flat_map gpuOf results, log ++ flat_map gpuLogOf results).
Proof.
  induction results as [|r results IH]; intros gpus log.
  - cbn. now rewrite !app_nil_r.
  - cbn [gpuLoop flat_map]. rewrite SplitN_colon. unfold gpuOf, gpuLogOf.
    destruct (GoStrings.index_nat r ":") as [i|].
    + cbn [List.length Nat.eqb negb nth]. rewrite IH.
      now rewrite <- !app_assoc.
    + cbn [List.length Nat.eqb negb]. rewrite IH.
      now rewrite <- !app_assoc.
Qed.

(** ** The partition mapper *)

Lemma float64_mebi : GoStrconv.float64 1048576 = 1048576%float.
Proof. reflexivity. Qed.

Lemma partitionLoop_spec results :
  forall sizes log,
    partitionLoop results sizes log =
    (sizes ++ flat_map partitionOf results, log ++ flat_map partitionLogOf results).
Proof.
  induction results as [|r results IH]; intros sizes log.
  - cbn. now rewrite !app_nil_r.
  - cbn [partitionLoop flat_map]. unfold partitionOf, partitionLogOf, GoStrings.HasPrefix.
    destruct (String.prefix "loop" r).
    + rewrite IH. reflexivity.
    + destruct (GoStrings.Fields r) as [|a [|b [|x l]]];
        cbn [List.length Nat.eqb negb nth];
        try (rewrite IH; now rewrite <- ?app_assoc).
      unfold convKBToGB. rewrite float64_mebi.
      destruct (GoStrconv.Atoi b); rewrite IH; now rewrite <- ?app_assoc.
Qed.

(** ** The screen mapper *)



Lemma recentSize_snoc seen line :
  recentSize (seen ++ [line]) =
  if isSizeLine line then Some (stripSpaces line) else recentSize seen.
Proof.
  induction seen as [|x seen IH].
  - cbn. destruct (isSizeLine line); reflexivity.
  - cbn [app recentSize]. rewrite IH.
    destruct (isSizeLine line); [reflexivity|].
    destruct (recentSize seen); reflexivity.
Qed.

Lemma recentSize_nonempty seen size : recentSize seen = Some size -> size <> "".
Proof.
  revert size. induction seen as [|x seen IH]; intros size; [discriminate|].
  cbn [recentSize]. destruct (recentSize seen) as [s|].
  - intros [= <-]. now apply IH.
  - destruct (isSizeLine x) eqn:E; [|discriminate].
    intros [= <-]. now apply stripSpaces_sizeLine.
Qed.

Lemma recentSize_from seen size :
  recentSize seen = Some size ->
  exists line, In line seen /\ isSizeLine line = true /\ size = stripSpaces line.
Proof.
  revert size. induction seen as [|x seen IH]; intros size; [discriminate|].
  cbn [recentSize]. destruct (recentSize seen) as [s|].
  - intros [= <-]. destruct (IH s eq_refl) as (line & Hin & Hs & E).
    exists line. split; [now right|]. now split.
  - destruct (isSizeLine x) eqn:E; [|discriminate].
    intros [= <-]. exists x. split; [now left|]. now split.
Qed.

Lemma screenLoop_spec results :
  forall seen screens log,
    screenLoop results (sizeOr (recentSize seen)) screens log =
    (screens ++ screensFrom seen results, log ++ screenLogsFrom seen results).
Proof.
  induction results as [|r results IH]; intros seen screens log.
  - cbn. now rewrite !app_nil_r.
  - cbn [screenLoop screensFrom screenLogsFrom].
    rewrite Index_found. unfold screenOf, screenLogOf.
    fold (isSizeLine r).
    specialize (IH (seen ++ [r])). rewrite recentSize_snoc in IH.
    destruct (isSizeLine r) eqn:Hsize.
    + rewrite Replace_spaces. cbn [sizeOr] in IH. now rewrite IH.
    + destruct (List.length (GoStrings.Fields r) <? 2) eqn:Hlen.
      * rewrite IH. now rewrite <- !app_assoc.
      * destruct (recentSize seen) as [size|] eqn:Hrecent; cbn [sizeOr] in *.
        -- pose proof (recentSize_nonempty _ _ Hrecent) as Hne.
           apply String.eqb_neq in Hne. rewrite Hne.
           rewrite nth_0_hd, nth_last_index, IH. now rewrite <- !app_assoc.
        -- cbn [String.eqb]. rewrite IH. now rewrite <- !app_assoc.
Qed.

Lemma screenLoop_init results :
  screenLoop results "" [] [] = (screensFrom [] results, screenLogsFrom [] results).
Proof. exact (screenLoop_spec results [] [] []). Qed.

Lemma screensFrom_in seen rest x :
  In x (screensFrom seen rest) ->
  exists before line after,
    rest = before ++ line :: after /\ In x (screenOf (seen ++ before) line).
Proof.
  revert seen. induction rest as [|r rest IH]; intros seen; [intros []|].
  cbn [screensFrom]. rewrite in_app_iff. intros [H|H].
  - exists [], r, rest. rewrite app_nil_r. now split.
  - destruct (IH _ H) as (before & line & after & -> & Hin).
    exists (r :: before), line, after. split; [reflexivity|].
    now rewrite <- app_assoc in Hin.
Qed.

Lemma screenOf_size seen line x :
  In x (screenOf seen line) -> recentSize seen = Some (Size x).
Proof.
  unfold screenOf. destruct (isSizeLine line); [intros []|].
  destruct (List.length (GoStrings.Fields line) <? 2); [intros []|].
  destruct (recentSize seen); [|intros []].
  intros [<-|[]]. reflexivity.
Qed.

Lemma screensFrom_size_line results x :
  In x (screensFrom [] results) ->
  Size x <> ""
  /\ exists before line after,
       results = before ++ line :: after
       /\ In x (screenOf before line)
       /\ exists sizeLine, In sizeLine before /\ isSizeLine sizeLine = true
                           /\ Size x = stripSpaces sizeLine.
Proof.
  intros H. destruct (screensFrom_in _ _ _ H) as (before & line & after & -> & Hin).
  cbn [app] in Hin. pose proof (screenOf_size _ _ _ Hin) as Hsize.
  split; [now apply (recentSize_nonempty before)|].
  exists before, line, after. split; [reflexivity|]. split; [assumption|].
  now apply recentSize_from.
Qed.

(** ** The mappers on the filtered lines *)



(** C4. The partition mapper handles each filtered entry on its own and in
    order ([partitionOf], [partitionLogOf]): an entry that starts with
    "loop" gives nothing, an entry without exactly two fields or with a size
    that is no integer is logged and gives nothing, and any other entry
    gives its kilobytes divided by 1,048,576.  The line
    "/dev/sda1        1048576  ..." gives 1.0, "/dev/loop0   512  ..."
    nothing, and "/dev/sdb1  notanumber" a log entry. *)
Theorem getPartitions_sizes_in_gigabytes :
  (forall results,
      partitionLoop results [] [] =
      (flat_map partitionOf results, flat_map partitionLogOf results))
  /\ (forall m,
         getPartitions m =
         match Filter.filterAll (runCmd (spaceInfoCmd m)) partitionPattern with
         | (_, Some err) => ([], partitionErrLog err)
         | (results, None) =>
             (flat_map partitionOf results, flat_map partitionLogOf results)
         end)
  /\ getPartitions (someMetrics (line "/dev/sda1        1048576  ...")) = ([1%float], [])
  /\ getPartitions (someMetrics (line "/dev/loop0   512  ...")) = ([], [])
  /\ getPartitions (someMetrics (line "/dev/sdb1  notanumber")) =
     ([], [partitionIntLog (Errorf "couldn't convert %s to integer" ["notanumber"])]).
Proof.
  split; [intros; now rewrite partitionLoop_spec|].
  split.
  - intros m. unfold getPartitions.
    destruct (Filter.filterAll (runCmd (spaceInfoCmd m)) partitionPattern)
      as [results [err|]]; [reflexivity|now rewrite partitionLoop_spec].
  - repeat split; vm_compute; reflexivity.
Qed.







(** C5. The screen mapper threads the most recent physical size through the
    filtered lines ([recentSize]): a line that contains "mm" replaces it by
    its text without spaces; any other line with at least two fields gives a
    record of the current size, the line's first field and its last field;
    a line with fewer than two fields, or one that comes before any size
    line, is logged and gives nothing. *)
Theorem getScreens_threads_recent_size :
  (forall results,
      screenLoop results "" [] [] = (screensFrom [] results, screenLogsFrom [] results))
  /\ (forall m,
         getScreens m =
         match Filter.filterAll (runCmd (screenInfoCmd m)) screenPattern with
         | (_, Some err) => ([], screenErrLog err)
         | (results, None) => (screensFrom [] results, screenLogsFrom [] results)
         end)
  /\ (forall seen screeninfo,
         isSizeLine screeninfo = (GoStrings.Index screeninfo "mm" >? -1)%Z
         /\ stripSpaces screeninfo = GoStrings.Replace screeninfo " " "" (-1)
         /\ recentSize (seen ++ [screeninfo]) =
            if isSizeLine screeninfo then Some (stripSpaces screeninfo)
            else recentSize seen)
  /\ screenLoop ["510mm x 290mm"; "1920x1080     60.00"] "" [] [] =
     ([Screen.mk "510mmx290mm" "1920x1080" "60.00"], [])
  /\ screenLoop ["1920x1080     60.00"; "1920x1080"] "" [] [] =
     ([], [screenNoSizeLog; screenShapeLog "1920x1080"]).
Proof.
  split; [intros; apply screenLoop_init|].
  split.
  - intros m. unfold getScreens.
    destruct (Filter.filterAll (runCmd (screenInfoCmd m)) screenPattern)
      as [results [err|]]; [reflexivity|apply screenLoop_init].
  - split.
    + intros seen screeninfo. rewrite Index_found, Replace_spaces, recentSize_snoc.
      repeat split.
    + split; vm_compute; reflexivity.
Qed.

(** The lines of a display listing through the filter: a size line and a
    mode line give one record; a mode line alone is logged. *)
Example getScreens_xrandr_lines :
  getScreens (someMetrics (line xrandrSize ++ line xrandrMode)) =
    ([Screen.mk "510mmx290mm" "1920x1080" "60.00"], [])
  /\ getScreens (someMetrics (line xrandrMode)) = ([], [screenNoSizeLog]).
Proof. split; vm_compute; reflexivity. Qed.

(** C10. Every record [getScreens] returns has a non-empty [Size]: it comes
    from a filtered line that follows a size line, and its [Size] is that
    size line without its spaces. *)
Theorem getScreens_sizes_not_empty :
  forall m,
    Forall
      (fun x =>
         Size x <> ""
         /\ exists before screeninfo after,
              fst (Filter.filterAll (runCmd (screenInfoCmd m)) screenPattern) =
                before ++ screeninfo :: after
              /\ In x (screenOf before screeninfo)
              /\ exists sizeLine,
                   In sizeLine before /\ isSizeLine sizeLine = true
                   /\ Size x = stripSpaces sizeLine)
      (fst (getScreens m)).
Proof.
  intros m. apply Forall_forall. intros x. unfold getScreens.
  destruct (Filter.filterAll (runCmd (screenInfoCmd m)) screenPattern)
    as [results [err|]]; [intros []|].
  rewrite screenLoop_init. cbn [fst].
  apply screensFrom_size_line.
Qed.

(** [getScreens_sizes_not_empty] at a listing with a size line and a mode line. *)
Lemma getScreens_sizes_not_empty_witness :
  Forall (fun x => Size x <> "")
         (fst (getScreens (someMetrics (line xrandrSize ++ line xrandrMode))))
  /\ List.length (fst (getScreens (someMetrics (line xrandrSize ++ line xrandrMode)))) = 1.
Proof.
  split; [|vm_compute; reflexivity].
  eapply Forall_impl; [|apply getScreens_sizes_not_empty]. cbn beta. tauto.
Defined.

(** ** Byte strings *)

Lemma append_nil_r s : (s ++ "")%string = s.
Proof. induction s as [|c s IH]; [reflexivity|]. cbn. now rewrite IH. Qed.

Lemma append_assoc (x y z : string) : ((x ++ y) ++ z = x ++ (y ++ z))%string.
Proof. induction x as [|c x IH]; [reflexivity|]. cbn. now rewrite IH. Qed.

Lemma length_append (x y : string) :
  String.length (x ++ y) = String.length x + String.length y.
Proof. induction x as [|c x IH]; [reflexivity|]. cbn. now rewrite IH. Qed.

Lemma take_length_append (x y : string) : take (String.length x) (x ++ y) = x.
Proof. induction x as [|c x IH]; [now destruct y|]. cbn. now rewrite IH. Qed.

Lemma take_append_le n (x y : string) :
  n <= String.length x -> take n (x ++ y) = take n x.
Proof.
  revert x. induction n as [|n IH]; intros x H; [now destruct x, y|].
  destruct x as [|c x]; [cbn in H; lia|].
  cbn. rewrite IH; [reflexivity|cbn in H; lia].
Qed.

Lemma take_drop n s : (take n s ++ drop n s)%string = s.
Proof.
  revert s. induction n as [|n IH]; intros s; [now destruct s|].
  destruct s as [|c s]; [reflexivity|]. cbn. now rewrite IH.
Qed.

Lemma prefix_length sub s : String.prefix sub s = true -> String.length sub <= String.length s.
Proof.
  revert s. induction sub as [|a sub IH]; intros s H; [cbn; lia|].
  destruct s as [|c s]; [discriminate|]. cbn in H.
  destruct (ascii_dec a c); [|discriminate]. cbn. apply IH in H. lia.
Qed.

Lemma prefix_append_long sub s t :
  String.length sub <= String.length s ->
  String.prefix sub (s ++ t) = String.prefix sub s.
Proof.
  revert s. induction sub as [|a sub IH]; intros s H.
  - now destruct s, t.
  - destruct s as [|c s]; [cbn in H; lia|]. cbn.
    destruct (ascii_dec a c); [|reflexivity]. apply IH. cbn in H. lia.
Qed.

Lemma prefix_self_append sub t : String.prefix sub (sub ++ t) = true.
Proof.
  induction sub as [|a sub IH]; [now destruct t|]. cbn.
  destruct (ascii_dec a a); [exact IH|congruence].
Qed.

(** ** [Index]: the first occurrence *)

Lemma index_nat_length s sub i :
  GoStrings.index_nat s sub = Some i -> i + String.length sub <= String.length s.
Proof.
  revert i. induction s as [|c s IH]; intros i.
  - cbn [GoStrings.index_nat]. destruct (String.prefix sub "") eqn:P; [|discriminate].
    intros [= <-]. now apply prefix_length in P.
  - rewrite index_nat_cons. destruct (String.prefix sub (String c s)) eqn:P.
    + intros [= <-]. now apply prefix_length in P.
    + destruct (GoStrings.index_nat s sub) as [j|]; [|discriminate].
      intros [= <-]. specialize (IH j eq_refl). cbn. lia.
Qed.

Lemma index_nat_append s sub t i :
  GoStrings.index_nat s sub = Some i -> GoStrings.index_nat (s ++ t) sub = Some i.
Proof.
  revert i. induction s as [|c s IH]; intros i H.
  - pose proof (index_nat_length _ _ _ H) as L. cbn in L.
    assert (i = 0) as -> by lia. destruct sub; [|cbn in L; lia].
    destruct t; reflexivity.
  - pose proof (index_nat_length _ _ _ H) as L.
    rewrite index_nat_cons in H. cbn [String.append]. rewrite index_nat_cons.
    change (String c (s ++ t))%string with (String c s ++ t)%string.
    rewrite prefix_append_long by lia.
    destruct (String.prefix sub (String c s)); [assumption|].
    destruct (GoStrings.index_nat s sub) as [j|]; [|discriminate].
    now rewrite (IH j eq_refl).
Qed.

Lemma index_nat_occurs x sub :
  exists i, GoStrings.index_nat (x ++ sub) sub = Some i /\ i <= String.length x.
Proof.
  induction x as [|c x (i & Hi & Le)].
  - exists 0. split; [|cbn; lia]. cbn [String.append].
    destruct sub; [reflexivity|].
    rewrite index_nat_cons. now rewrite <- (append_nil_r (String a sub)) at 2;
      rewrite prefix_self_append.
  - cbn [String.append]. rewrite index_nat_cons.
    destruct (String.prefix sub (String c (x ++ sub))).
    + exists 0. split; [reflexivity|cbn; lia].
    + exists (S i). rewrite Hi. split; [reflexivity|cbn; lia].
Qed.

Lemma hasColon_append x y : hasColon (x ++ String ":" y).
Proof.
  unfold hasColon. induction x as [|c x IH].
  { cbn [String.append]. rewrite index_nat_cons, prefix_char. cbn. discriminate. }
  cbn [String.append]. rewrite index_nat_cons.
  destruct (String.prefix ":" (String c (x ++ String ":" y))); [discriminate|].
  destruct (GoStrings.index_nat (x ++ String ":" y) ":"); [discriminate|contradiction].
Qed.

(** ** The matcher *)

Section Matcher.

Import Regexp.

Lemma star_cases body fuel t t' :
  In t' (star body fuel t) ->
  t' = t
  \/ exists fuel' t1,
       fuel = S fuel' /\ In t1 (body t)
       /\ String.length (rest_of t1) < String.length (rest_of t)
       /\ In t' (star body fuel' t1).
Proof.
  destruct fuel as [|fuel']; cbn [star].
  - intros [<-|[]]. now left.
  - rewrite in_app_iff, in_flat_map. intros [(t1 & H1 & H2)|[<-|[]]]; [|now left].
    right. exists fuel', t1.
    destruct (Nat.ltb_spec (String.length (rest_of t1)) (String.length (rest_of t)));
      [now repeat split|destruct H2].
Qed.

Lemma star_stop body fuel t : In t (star body fuel t).
Proof.
  destruct fuel; cbn [star]; [now left|].
  rewrite in_app_iff. right. now left.
Qed.

Lemma star_more body fuel t t1 t' :
  In t1 (body t) ->
  String.length (rest_of t1) < String.length (rest_of t) ->
  In t' (star body fuel t1) ->
  In t' (star body (S fuel) t).
Proof.
  intros H1 L H2. cbn [star]. rewrite in_app_iff, in_flat_map. left.
  exists t1. split; [assumption|].
  now apply Nat.ltb_lt in L as ->.
Qed.

Lemma reads_refl t : reads t t "".
Proof. split; [reflexivity|cbn; lia]. Qed.

Lemma reads_trans t1 t2 t3 x y :
  reads t1 t2 x -> reads t2 t3 y -> reads t1 t3 (x ++ y).
Proof.
  intros [R1 P1] [R2 P2]. split.
  - now rewrite R1, R2, append_assoc.
  - rewrite length_append. lia.
Qed.

(** The matcher is sound: what a thread reads is a text of the pattern. *)
Lemma run_sound r :
  forall t t', In t' (run r t) -> exists x, reads t t' x /\ lang r x.
Proof.
  induction r as [|k|a IHa b IHb|a IHa b IHb|a IHa|i a IHa| |]; intros t t'; cbn [run].
  - intros [<-|[]]. exists "". split; [apply reads_refl|constructor].
  - destruct t as [[c p] s]. cbn [rest_of pos_of caps_of fst snd].
    destruct s as [|ch s]; [intros []|].
    destruct (cset_mem k ch) eqn:M; [|intros []].
    intros [<-|[]]. exists (String ch ""). split; [|now constructor].
    split; cbn; [reflexivity|lia].
  - rewrite in_flat_map. intros (t1 & H1 & H2).
    destruct (IHa _ _ H1) as (x & Rx & Lx). destruct (IHb _ _ H2) as (y & Ry & Ly).
    exists (x ++ y)%string. split; [now apply (reads_trans _ t1)|now constructor].
  - rewrite in_app_iff. intros [H|H].
    + destruct (IHa _ _ H) as (x & Rx & Lx). exists x. split; [assumption|now apply lang_alt_l].
    + destruct (IHb _ _ H) as (x & Rx & Lx). exists x. split; [assumption|now apply lang_alt_r].
  - generalize (String.length (rest_of t)). intros fuel. revert t.
    induction fuel as [|fuel IH]; intros t H; apply star_cases in H;
      destruct H as [->|(fuel' & t1 & E & H1 & L & H2)];
      try (exists ""; split; [apply reads_refl|constructor]); [discriminate|].
    injection E as <-.
    destruct (IHa _ _ H1) as (x & Rx & Lx). destruct (IH _ H2) as (y & Ry & Ly).
    exists (x ++ y)%string. split; [now apply (reads_trans _ t1)|now constructor].
  - rewrite in_map_iff. intros (t1 & <- & H1).
    destruct (IHa _ _ H1) as (x & [Rx Px] & Lx). exists x. split; [|now constructor].
    split; assumption.
  - destruct (pos_of t =? 0); [|intros []]. intros [<-|[]].
    exists "". split; [apply reads_refl|constructor].
  - destruct (rest_of t); [|intros []]. intros [<-|[]].
    exists "". split; [apply reads_refl|constructor].
Qed.

Lemma capture_text i t t1 x :
  reads t t1 x -> caps_of (capture i t t1) = (i, x) :: caps_of t1.
Proof.
  intros [R P]. unfold capture. cbn [caps_of fst]. rewrite P, R.
  replace (pos_of t + String.length x - pos_of t) with (String.length x) by lia.
  now rewrite take_length_append.
Qed.

Section Captures.

Variable P : string -> Prop.
Variable i : nat.

(** A capture of group [i] is a text the group matches. *)
Lemma run_group_texts r :
  groupTexts P i r ->
  forall t t', capOK P i (caps_of t) -> In t' (run r t) -> capOK P i (caps_of t').
Proof.
  induction r as [|k|a IHa b IHb|a IHa b IHb|a IHa|j a IHa| |]; intros G t t' OK;
    cbn [run]; cbn [groupTexts] in G.
  - now intros [<-|[]].
  - destruct (rest_of t); [intros []|]. destruct (cset_mem k a); [|intros []].
    now intros [<-|[]].
  - rewrite in_flat_map. intros (t1 & H1 & H2). destruct G as [Ga Gb].
    eapply IHb; [assumption| |eassumption]. eapply IHa; eassumption.
  - rewrite in_app_iff. destruct G as [Ga Gb]. intros [H|H]; [eapply IHa|eapply IHb]; eassumption.
  - generalize (String.length (rest_of t)). intros fuel. revert t OK.
    induction fuel as [|fuel IH]; intros t OK H; apply star_cases in H;
      destruct H as [->|(fuel' & t1 & E & H1 & L & H2)]; try assumption; [discriminate|].
    injection E as <-. eapply IH; [|eassumption]. eapply IHa; eassumption.
  - rewrite in_map_iff. intros (t1 & <- & H1). destruct G as [Gj Ga].
    destruct (run_sound _ _ _ H1) as (x & R & L).
    rewrite (capture_text _ _ _ _ R). intros g. cbn [lookup].
    destruct (Nat.eqb_spec j i) as [E|E].
    + intros [= <-]. now apply Gj.
    + apply (IHa Ga t t1 OK H1).
  - destruct (pos_of t =? 0); [|intros []]. now intros [<-|[]].
  - destruct (rest_of t); [|intros []]. now intros [<-|[]].
Qed.

(** A group that has a capture keeps one. *)
Lemma run_keeps r :
  forall t t', lookup i (caps_of t) <> None -> In t' (run r t) ->
               lookup i (caps_of t') <> None.
Proof.
  induction r as [|k|a IHa b IHb|a IHa b IHb|a IHa|j a IHa| |]; intros t t' OK; cbn [run].
  - now intros [<-|[]].
  - destruct (rest_of t); [intros []|]. destruct (cset_mem k a); [|intros []].
    now intros [<-|[]].
  - rewrite in_flat_map. intros (t1 & H1 & H2). eapply IHb; [|eassumption]. eapply IHa; eassumption.
  - rewrite in_app_iff. intros [H|H]; [eapply IHa|eapply IHb]; eassumption.
  - generalize (String.length (rest_of t)). intros fuel. revert t OK.
    induction fuel as [|fuel IH]; intros t OK H; apply star_cases in H;
      destruct H as [->|(fuel' & t1 & E & H1 & L & H2)]; try assumption; [discriminate|].
    injection E as <-. eapply IH; [|eassumption]. eapply IHa; eassumption.
  - rewrite in_map_iff. intros (t1 & <- & H1).
    unfold capture. cbn [caps_of fst lookup]. destruct (j =? i); [discriminate|].
    now apply (IHa t t1).
  - destruct (pos_of t =? 0); [|intros []]. now intros [<-|[]].
  - destruct (rest_of t); [|intros []]. now intros [<-|[]].
Qed.

(** A pattern whose every match goes through group [i] leaves a capture. *)
Lemma run_sets r :
  sets i r = true ->
  forall t t', In t' (run r t) -> lookup i (caps_of t') <> None.
Proof.
  induction r as [|k|a IHa b IHb|a IHa b IHb|a IHa|j a IHa| |]; cbn [sets];
    try discriminate; intros S t t'; cbn [run].
  - rewrite in_flat_map. intros (t1 & H1 & H2).
    destruct (sets i a) eqn:Sa.
    + eapply run_keeps; [|eassumption]. now apply (IHa eq_refl t).
    + now apply (IHb S t1).
  - apply andb_true_iff in S as [Sa Sb]. rewrite in_app_iff.
    intros [H|H]; [now apply (IHa Sa t)|now apply (IHb Sb t)].
  - rewrite in_map_iff. intros (t1 & <- & H1).
    unfold capture. cbn [caps_of fst lookup].
    destruct (j =? i) eqn:E; [discriminate|]. now apply (IHa S t).
Qed.

End Captures.

(** A match of a pattern without [$] is a match when the text goes on. *)
Lemma run_extend r y :
  noEol r = true ->
  forall t t', In t' (run r t) -> In (extend y t') (run r (extend y t)).
Proof.
  induction r as [|k|a IHa b IHb|a IHa b IHb|a IHa|j a IHa| |]; cbn [noEol];
    try discriminate; intros N t t'; cbn [run].
  - intros [<-|[]]. now left.
  - destruct t as [[c p] s]. unfold extend. cbn [rest_of pos_of caps_of fst snd].
    destruct s as [|ch s]; [intros []|]. cbn [String.append].
    destruct (cset_mem k ch); [|intros []]. intros [<-|[]]. now left.
  - apply andb_true_iff in N as [Na Nb]. rewrite !in_flat_map.
    intros (t1 & H1 & H2). exists (extend y t1). split; [now apply IHa|now apply IHb].
  - apply andb_true_iff in N as [Na Nb]. rewrite !in_app_iff.
    intros [H|H]; [left; now apply IHa|right; now apply IHb].
  - assert (G : forall fuel t t', In t' (star (run a) fuel t) ->
                forall fuel2, String.length (rest_of (extend y t)) <= fuel2 ->
                              In (extend y t') (star (run a) fuel2 (extend y t))).
    { induction fuel as [|fuel IH]; intros u u' H fuel2 L; apply star_cases in H;
        destruct H as [->|(fuel' & t1 & E & H1 & Lt & H2)];
        try apply star_stop; [discriminate|].
      injection E as <-.
      assert (Lt' : String.length (rest_of (extend y t1))
                    < String.length (rest_of (extend y u))).
      { unfold extend. cbn [rest_of snd]. rewrite !length_append. lia. }
      destruct fuel2 as [|fuel2]; [lia|].
      apply (star_more _ _ _ (extend y t1)); [now apply IHa|assumption|].
      apply IH; [assumption|lia]. }
    intros H. apply (G _ _ _ H). apply Nat.le_refl.
  - rewrite !in_map_iff. intros (t1 & <- & H1). exists (extend y t1).
    split; [|now apply IHa].
    destruct (run_sound _ _ _ H1) as (x & [R P] & _).
    unfold capture, extend. cbn [caps_of pos_of rest_of fst snd].
    rewrite take_append_le; [reflexivity|]. rewrite P, R, length_append. lia.
  - change (pos_of (extend y t)) with (pos_of t).
    destruct (pos_of t =? 0); [|intros []]. intros [<-|[]]. now left.
Qed.

Lemma find_from_some r p s m :
  find_from r p s = Some m ->
  exists q u t', In t' (run r ([], q, u)) /\ mstart m = q /\ mcaps m = caps_of t'.
Proof.
  revert p. induction s as [|c s IH]; intros p; cbn [find_from].
  - destruct (run r ([], p, "")) as [|t l] eqn:E; [discriminate|].
    intros [= <-]. exists p, "", t. rewrite E. repeat split. now left.
  - destruct (run r ([], p, String c s)) as [|t l] eqn:E; [apply IH|].
    intros [= <-]. exists p, (String c s), t. rewrite E. repeat split. now left.
Qed.

Lemma find_from_here r p s t : In t (run r ([], p, s)) -> find_from r p s <> None.
Proof.
  intros H. destruct s; cbn [find_from]; destruct (run r _);
    try discriminate; destruct H.
Qed.

Lemma find_from_extend r y :
  noEol r = true ->
  forall s p, find_from r p s <> None -> find_from r p (s ++ y) <> None.
Proof.
  intros N. induction s as [|c s IH]; intros p H.
  - cbn [find_from] in H.
    destruct (run r ([], p, "")) as [|t l] eqn:E; [congruence|].
    apply (find_from_here _ _ _ (extend y t)).
    apply (run_extend r y N ([], p, "")). rewrite E. now left.
  - cbn [find_from] in H.
    destruct (run r ([], p, String c s)) as [|t l] eqn:E.
    + cbn [String.append find_from].
      destruct (run r ([], p, String c (s ++ y))); [now apply IH|discriminate].
    + apply (find_from_here _ _ _ (extend y t)).
      apply (run_extend r y N ([], p, String c s)). rewrite E. now left.
Qed.

End Matcher.

(** ** The patterns of the mappers *)

Section Patterns.

Import Regexp Filter.

(** The four patterns of the mappers are read, with their groups counted. *)
Example patterns_compile :
  compile gpuPattern = Some (MustCompile gpuPattern)
  /\ compile screenPattern = Some (MustCompile screenPattern)
  /\ compile partitionPattern = Some (MustCompile partitionPattern)
  /\ compile hwCapPattern = Some (MustCompile hwCapPattern)
  /\ map (fun p => NumSubexp (MustCompile p))
         [gpuPattern; screenPattern; partitionPattern; hwCapPattern] = [2; 2; 1; 1].
Proof. repeat split; vm_compute; reflexivity. Qed.

Lemma lang_seq_chr a c b x :
  lang (Seq a (Seq (Chr (CChar c)) b)) x ->
  exists xa xb, x = (xa ++ String c xb)%string.
Proof.
  intros L. inversion L as [| |? ? xa y La Lb| | | | | | |]; subst.
  inversion Lb as [| |? ? xc xb Lc Ld| | | | | | |]; subst.
  inversion Lc as [|? ch M| | | | | | | |]; subst.
  cbn in M. apply Ascii.eqb_eq in M as ->. now exists xa, xb.
Qed.

Lemma firstGroup_first n c g :
  lookup 1 c = Some g -> firstGroup (S n) c = Some g.
Proof. intros H. unfold firstGroup. cbn [seq flat_map]. now rewrite H. Qed.

Lemma gpuPattern_groups :
  NumSubexp (MustCompile gpuPattern) = 2
  /\ sets 1 (prog (MustCompile gpuPattern)) = true
  /\ groupTexts hasColon 1 (prog (MustCompile gpuPattern)).
Proof.
  split; [reflexivity|]. split; [reflexivity|].
  let r := eval vm_compute in (prog (MustCompile gpuPattern)) in
  change (groupTexts hasColon 1 r).
  cbn [groupTexts]. repeat split; try discriminate.
  intros _ x L. apply lang_seq_chr in L as (xa & xb & ->). apply hasColon_append.
Qed.

(** Every string the GPU pattern captures has a colon. *)
Lemma gpuPattern_capture l s :
  filterLine (MustCompile gpuPattern) false l = Some s -> hasColon s.
Proof.
  destruct gpuPattern_groups as (N & S1 & G).
  unfold filterLine, FindStringSubmatch.
  destruct (find_from (prog (MustCompile gpuPattern)) 0 l) as [m|] eqn:F; [|discriminate].
  cbn [andb]. intros [= <-]. unfold captured. rewrite N. cbn [Nat.eqb].
  destruct (find_from_some _ _ _ _ F) as (q & u & t' & Hin & _ & ->).
  pose proof (run_sets 1 _ S1 _ _ Hin) as Hset.
  pose proof (run_group_texts hasColon 1 _ G ([], q, u) t') as OK.
  destruct (lookup 1 (caps_of t')) as [g|] eqn:E; [|congruence].
  rewrite (firstGroup_first _ _ _ E). apply OK; [intros g' [=]|assumption|assumption].
Qed.

Lemma matches_in rx anchor data s :
  In s (matches rx anchor data) <->
  exists l, In l (lines data) /\ filterLine rx anchor l = Some s.
Proof.
  unfold matches. rewrite in_flat_map. split; intros (l & Hl & H); exists l; (split; [assumption|]).
  - destruct (filterLine rx anchor l); [|destruct H]. destruct H as [<-|[]]. reflexivity.
  - rewrite H. now left.
Qed.

Lemma gpuPattern_matches data :
  Forall hasColon (matches (MustCompile gpuPattern) false data).
Proof.
  apply Forall_forall. intros s H. apply matches_in in H as (l & _ & H).
  now apply (gpuPattern_capture l).
Qed.

Lemma SplitN_hasColon s : hasColon s -> List.length (GoStrings.SplitN s ":" 2) = 2.
Proof.
  unfold hasColon. rewrite SplitN_colon.
  destruct (GoStrings.index_nat s ":"); [reflexivity|congruence].
Qed.

Lemma gpuLoop_hasColon results :
  Forall hasColon results -> gpuLoop results [] [] = (map splitGPU results, []).
Proof.
  intros H. rewrite gpuLoop_spec. cbn [app]. f_equal.
  - induction H as [|s results Hs _ IH]; [reflexivity|].
    cbn [flat_map map]. rewrite IH. unfold gpuOf, splitGPU. rewrite SplitN_colon.
    unfold hasColon in Hs. destruct (GoStrings.index_nat s ":"); [reflexivity|congruence].
  - induction H as [|s results Hs _ IH]; [reflexivity|].
    cbn [flat_map]. rewrite IH. unfold gpuLogOf.
    unfold hasColon in Hs. destruct (GoStrings.index_nat s ":"); [reflexivity|congruence].
Qed.

(** C9. Every string the capture group of the GPU pattern yields has a
    colon, so [SplitN] gives two parts for every filtered string: [getGPU]
    makes a record of each of them and never takes the branch that logs. *)
Theorem getGPU_never_drops_a_capture :
  (forall l gpuinfo,
      filterLine (MustCompile gpuPattern) false l = Some gpuinfo ->
      GoStrings.index_nat gpuinfo ":" <> None)
  /\ forall m,
       match filterAll (runCmd (gpuInfoCmd m)) gpuPattern with
       | (_, Some err) => getGPU m = ([], gpuErrLog err)
       | (results, None) =>
           Forall (fun gpuinfo => List.length (GoStrings.SplitN gpuinfo ":" 2) = 2) results
           /\ getGPU m = (map splitGPU results, [])
       end.
Proof.
  split; [exact gpuPattern_capture|]. intros m. unfold getGPU.
  destruct (filterAll (runCmd (gpuInfoCmd m)) gpuPattern) as [results [err|]] eqn:F;
    [reflexivity|].
  assert (H : Forall hasColon results).
  { unfold filterAll in F. destruct (rerr (runCmd (gpuInfoCmd m))); [discriminate|].
    injection F as <-. apply gpuPattern_matches. }
  split; [|now apply gpuLoop_hasColon].
  eapply Forall_impl; [|exact H]. apply SplitN_hasColon.
Qed.

(** [getGPU_never_drops_a_capture] on a listing of two display controllers
    among other devices. *)
Example getGPU_never_drops_a_capture_example :
  getGPU (someMetrics (line "00:02.0 0300: 8086:0416 (rev 06)"
                       ++ line "00:03.0 0403: 8086:0c0c (rev 06)"
                       ++ line "01:00.0 0300: 10de:1234")) =
  ([GPU.mk "8086" "0416"; GPU.mk "10de" "1234"], []).
Proof. vm_compute. reflexivity. Qed.

(** ** The GPU mapper on the lines of the listing *)

Lemma noSpace_append x y : noSpace x -> noSpace y -> noSpace (x ++ y).
Proof.
  unfold noSpace. intros Hx Hy. induction x as [|c x IH]; [exact Hy|].
  rewrite index_nat_cons, prefix_char in Hx. cbn [String.append].
  rewrite index_nat_cons, prefix_char.
  destruct (Ascii.eqb c " "); [discriminate|].
  destruct (GoStrings.index_nat x " "); [discriminate|]. now rewrite IH.
Qed.

(** The texts of a pattern whose classes leave out the space have no space. *)
Lemma lang_noSpace r x : spaceFree r = true -> lang r x -> noSpace x.
Proof.
  intros F L. induction L as [|k c M|a b x y _ IHa _ IHb|a b x _ IH|a b x _ IH
                             |a|a x y _ IHa _ IHs|i a x _ IH| |]; cbn [spaceFree] in F.
  - reflexivity.
  - unfold noSpace. rewrite index_nat_cons, prefix_char.
    destruct (Ascii.eqb_spec c " ") as [->|]; [|reflexivity].
    rewrite M in F. discriminate.
  - apply andb_true_iff in F as [Fa Fb]. apply noSpace_append; auto.
  - apply andb_true_iff in F as [Fa Fb]. auto.
  - apply andb_true_iff in F as [Fa Fb]. auto.
  - reflexivity.
  - apply noSpace_append; auto.
  - auto.
  - reflexivity.
  - reflexivity.
Qed.

(** No string the GPU pattern captures has a space. *)
Lemma gpuPattern_capture_noSpace l s :
  filterLine (MustCompile gpuPattern) false l = Some s -> noSpace s.
Proof.
  destruct gpuPattern_groups as (N & S1 & _).
  unfold filterLine, FindStringSubmatch.
  destruct (find_from (prog (MustCompile gpuPattern)) 0 l) as [m|] eqn:F; [|discriminate].
  cbn [andb]. intros [= <-]. unfold captured. rewrite N. cbn [Nat.eqb].
  destruct (find_from_some _ _ _ _ F) as (q & u & t' & Hin & _ & ->).
  pose proof (run_sets 1 _ S1 _ _ Hin) as Hset.
  assert (G : groupTexts noSpace 1 (prog (MustCompile gpuPattern))).
  { let r := eval vm_compute in (prog (MustCompile gpuPattern)) in
    change (groupTexts noSpace 1 r).
    cbn [groupTexts]. repeat split; try discriminate.
    intros _ x L. revert L. apply lang_noSpace. reflexivity. }
  pose proof (run_group_texts noSpace 1 _ G ([], q, u) t') as OK.
  destruct (lookup 1 (caps_of t')) as [g|] eqn:E; [|congruence].
  rewrite (firstGroup_first _ _ _ E). apply OK; [intros g' [=]|assumption|assumption].
Qed.

Lemma filterAll_gpu_noSpace r results :
  filterAll r gpuPattern = (results, None) -> Forall noSpace results.
Proof.
  unfold filterAll. destruct (rerr r); [discriminate|]. intros [= <-].
  apply Forall_forall. intros s H. apply matches_in in H as (l & _ & H).
  now apply (gpuPattern_capture_noSpace l).
Qed.

(** C6, as amended.  The GPU mapper handles each filtered string on its own
    and in order: one with a colon is split at its first colon into the
    vendor before it and the model after it, one that does not split in two
    is logged and gives no record.  The line
    "01:00.0 0300: 10de:1234 (rev a1)" gives vendor "10de" and model "1234".
    The line "0300: noColon" is never returned, and it is not logged
    either: it does not match the pattern, so in no listing does the mapper
    get to see it. *)
Theorem getGPU_splits_at_first_colon :
  (forall results,
      gpuLoop results [] [] = (flat_map gpuOf results, flat_map gpuLogOf results))
  /\ (forall m,
         getGPU m =
         match filterAll (runCmd (gpuInfoCmd m)) gpuPattern with
         | (_, Some err) => ([], gpuErrLog err)
         | (results, None) => (flat_map gpuOf results, flat_map gpuLogOf results)
         end)
  /\ (forall gpuinfo,
         GoStrings.SplitN gpuinfo ":" 2 =
         match GoStrings.index_nat gpuinfo ":" with
         | Some i => [take i gpuinfo; drop (S i) gpuinfo]
         | None => [gpuinfo]
         end)
  /\ (forall gpuinfo i,
         GoStrings.index_nat gpuinfo ":" = Some i ->
         gpuinfo = (take i gpuinfo ++ ":" ++ drop (S i) gpuinfo)%string
         /\ GoStrings.index_nat (take i gpuinfo) ":" = None)
  /\ getGPU (someMetrics (line "01:00.0 0300: 10de:1234 (rev a1)")) =
     ([GPU.mk "10de" "1234"], [])
  /\ getGPU (someMetrics (line "0300: noColon")) = ([], [])
  /\ (forall m,
         ~ In "0300: noColon" (fst (filterAll (runCmd (gpuInfoCmd m)) gpuPattern))
         /\ ~ In (GPU.mk "0300" " noColon") (fst (getGPU m))).
Proof.
  split; [intros; now rewrite gpuLoop_spec|].
  split.
  { intros m. unfold getGPU.
    destruct (filterAll (runCmd (gpuInfoCmd m)) gpuPattern) as [results [err|]];
      [reflexivity|now rewrite gpuLoop_spec]. }
  split; [apply SplitN_colon|]. split.
  { intros gpuinfo i H. split; [|now apply index_nat_first].
    rewrite (index_nat_at _ _ _ H) at 1. cbn [String.length]. now rewrite Nat.add_1_r. }
  split; [vm_compute; reflexivity|]. split; [vm_compute; reflexivity|].
  intros m. unfold getGPU.
  destruct (filterAll (runCmd (gpuInfoCmd m)) gpuPattern) as [results [err|]] eqn:F.
  - unfold filterAll in F. destruct (rerr (runCmd (gpuInfoCmd m))); [|discriminate].
    injection F as <- _. split; intros [].
  - pose proof (filterAll_gpu_noSpace _ _ F) as N. rewrite Forall_forall in N.
    cbn [fst]. split.
    + intros H. apply N in H. vm_compute in H. discriminate.
    + rewrite gpuLoop_spec. cbn [fst app]. intros H.
      apply in_flat_map in H as (r & Hr & H). unfold gpuOf in H.
      destruct (GoStrings.index_nat r ":") as [i|] eqn:E; [|destruct H].
      destruct H as [H|[]].
      assert (Hv : take i r = "0300") by exact (f_equal GPU.Vendor H).
      assert (Hm : drop (S i) r = " noColon") by exact (f_equal GPU.Model H).
      pose proof (index_nat_at _ _ _ E) as R.
      change (String.length ":") with 1 in R.
      rewrite Nat.add_1_r, Hv, Hm in R. subst r.
      apply N in Hr. vm_compute in Hr. discriminate.
Qed.

(** C6, as stated, fails on its own example: the line "0300: noColon" does
    not match the pattern, the filter yields nothing for it, and the
    mapper, which never sees it, drops it without logging anything. *)
Lemma getGPU_noColon_line_not_logged :
  filterAll (runCmd (gpuInfoCmd (someMetrics (line "0300: noColon")))) gpuPattern
    = ([], None)
  /\ getGPU (someMetrics (line "0300: noColon")) = ([], []).
Proof. split; vm_compute; reflexivity. Qed.

(** ** The lines of a prefix *)

Lemma lines_append s1 s2 :
  exists ext more,
    Forall2 goesOn (lines s1) ext /\ lines (s1 ++ s2) = ext ++ more.
Proof.
  induction s1 as [|c s1 (ext & more & F & E)].
  - exists [], (lines s2). split; [constructor|reflexivity].
  - cbn [String.append lines]. rewrite E. destruct (Ascii.eqb c LF).
    + exists ("" :: ext), more. split; [|reflexivity].
      constructor; [now exists ""|assumption].
    + destruct F as [|l0 e0 ls es [x ->] F].
      * cbn [app]. destruct more as [|l0' ls'].
        -- exists [String c ""], []. split; [|reflexivity].
           constructor; [now exists ""|constructor].
        -- exists [String c l0'], ls'. split; [|reflexivity].
           constructor; [now exists l0'|constructor].
      * exists (String c (l0 ++ x) :: es), more. split; [|reflexivity].
        constructor; [now exists x|assumption].
Qed.

Lemma lines_goesOn s1 s2 l :
  In l (lines s1) -> exists l', In l' (lines (s1 ++ s2)) /\ goesOn l l'.
Proof.
  destruct (lines_append s1 s2) as (ext & more & F & ->).
  intros H. induction F as [|a b la lb G F IH]; [destruct H|].
  destruct H as [<-|H].
  - exists b. split; [now left|assumption].
  - destruct (IH H) as (l' & Hin & Hl). exists l'. split; [now right|assumption].
Qed.

Lemma filterLine_unanchored rx l :
  filterLine rx false l = None <-> FindStringSubmatch rx l = None.
Proof.
  unfold filterLine. destruct (FindStringSubmatch rx l); cbn [andb]; split; congruence.
Qed.

Lemma matches_none rx data :
  (forall l, In l (lines data) -> FindStringSubmatch rx l = None) ->
  matches rx false data = [].
Proof.
  intros H. destruct (matches rx false data) as [|s ms] eqn:E; [reflexivity|].
  assert (I : In s (matches rx false data)) by (rewrite E; now left).
  apply matches_in in I as (l & Hl & F).
  apply H, filterLine_unanchored in Hl. congruence.
Qed.

(** A pattern without [$] that matches no line of a text matches no line of
    a prefix of it. *)
Lemma matches_none_prefix rx s1 s2 :
  noEol (prog rx) = true ->
  (forall l, In l (lines (s1 ++ s2)) -> FindStringSubmatch rx l = None) ->
  matches rx false s1 = [].
Proof.
  intros N H. apply matches_none. intros l Hl.
  destruct (lines_goesOn s1 s2 l Hl) as (l' & Hl' & x & ->).
  specialize (H _ Hl'). unfold FindStringSubmatch in *.
  destruct (find_from (prog rx) 0 l) eqn:E; [|reflexivity].
  exfalso. apply (find_from_extend (prog rx) x N l 0); congruence.
Qed.

End Patterns.

(** ** [getHwCap] *)

Section HwCap.

Import Regexp Filter.

Lemma Index_nonneg s sub :
  (GoStrings.Index s sub >=? 0)%Z =
  match GoStrings.index_nat s sub with Some _ => true | None => false end.
Proof.
  unfold GoStrings.Index. destruct (GoStrings.index_nat s sub); [|reflexivity].
  apply Z.geb_le. lia.
Qed.

Lemma Index_negative s sub :
  (GoStrings.Index s sub <? 0)%Z =
  match GoStrings.index_nat s sub with Some _ => false | None => true end.
Proof.
  unfold GoStrings.Index. destruct (GoStrings.index_nat s sub); [|reflexivity].
  apply Z.ltb_ge. lia.
Qed.

Lemma searched_found b i :
  GoStrings.index_nat b legacyBytes = Some i -> searched b = take i b.
Proof.
  intros H. unfold searched. rewrite Index_nonneg. unfold GoStrings.Index.
  rewrite H. now rewrite Nat2Z.id.
Qed.

Lemma searched_absent b :
  GoStrings.index_nat b legacyBytes = None -> searched b = b.
Proof. intros H. unfold searched. rewrite Index_nonneg. now rewrite H. Qed.

Lemma searched_prefix b : exists rest, b = (searched b ++ rest)%string.
Proof.
  destruct (GoStrings.index_nat b legacyBytes) as [i|] eqn:E.
  - rewrite (searched_found _ _ E). exists (drop i b). now rewrite take_drop.
  - rewrite (searched_absent _ E). exists "". now rewrite append_nil_r.
Qed.

(** What is searched of an output that has the legacy marker after [p] is a
    prefix of [p], the same whatever follows the marker. *)
Lemma searched_before_marker p :
  exists i, i <= String.length p
            /\ forall t, searched (p ++ legacyBytes ++ t) = take i p.
Proof.
  destruct (index_nat_occurs p legacyBytes) as (i & Hi & Le).
  exists i. split; [assumption|]. intros t.
  rewrite <- append_assoc.
  rewrite (searched_found _ i); [|now apply index_nat_append].
  rewrite append_assoc. now apply take_append_le.
Qed.

Lemma getHwCap_searched m cmd :
  hwCapCmd m = Some cmd -> RunErr cmd = None ->
  GoStrings.index_nat (Stdout cmd) hwCapBytes <> None ->
  getHwCap m =
  hwCapResult (filterFirst (NewReader (searched (Stdout cmd))) hwCapPattern false).
Proof.
  intros Hc Hr Hm. unfold getHwCap. rewrite Hc.
  unfold ReadAll, runCmd. cbn [rdata rerr]. rewrite Hr. cbn [option_map].
  rewrite Index_negative.
  destruct (GoStrings.index_nat (Stdout cmd) hwCapBytes); [|congruence].
  unfold hwCapResult.
  destruct (filterFirst (NewReader (searched (Stdout cmd))) hwCapPattern false)
    as [res [err|]]; reflexivity.
Qed.

Lemma getHwCap_no_marker m cmd :
  hwCapCmd m = Some cmd -> RunErr cmd = None ->
  GoStrings.index_nat (Stdout cmd) hwCapBytes = None ->
  getHwCap m = ("", []).
Proof.
  intros Hc Hr Hm. unfold getHwCap. rewrite Hc.
  unfold ReadAll, runCmd. cbn [rdata rerr]. rewrite Hr. cbn [option_map].
  rewrite Index_negative. now rewrite Hm.
Qed.

Lemma hwCapPattern_noEol : noEol (prog (MustCompile hwCapPattern)) = true.
Proof. reflexivity. Qed.

Lemma getHwCap_no_supported_line m cmd :
  hwCapCmd m = Some cmd -> RunErr cmd = None ->
  GoStrings.index_nat (Stdout cmd) hwCapBytes <> None ->
  (forall l, In l (lines (Stdout cmd)) ->
             FindStringSubmatch (MustCompile hwCapPattern) l = None) ->
  getHwCap m =
  ("-", [Infof (FmtErrFormat "No supported hwcap: ") [ArgError (notFound hwCapPattern)]]).
Proof.
  intros Hc Hr Hm Hl. rewrite (getHwCap_searched m cmd Hc Hr Hm).
  destruct (searched_prefix (Stdout cmd)) as (rest & E). rewrite E in Hl.
  unfold filterFirst. cbn [NewReader rdata rerr].
  now rewrite (matches_none_prefix _ _ _ hwCapPattern_noEol Hl).
Qed.

(** C7. [getHwCap] returns the empty string when no capability command is
    configured and when the output of the command lacks the marker
    "Subdirectories of glibc-hwcaps"; it returns "-" when the marker is
    there and no line of the output matches the supported-level pattern;
    and the two results differ. *)
Theorem getHwCap_empty_or_dash :
  (forall m, hwCapCmd m = None -> getHwCap m = ("", []))
  /\ (forall m cmd,
         hwCapCmd m = Some cmd ->
         (GoStrings.Index (Stdout cmd) hwCapBytes < 0)%Z ->
         fst (getHwCap m) = "")
  /\ (forall m cmd,
         hwCapCmd m = Some cmd -> RunErr cmd = None ->
         (GoStrings.Index (Stdout cmd) hwCapBytes >= 0)%Z ->
         (forall l, In l (lines (Stdout cmd)) ->
                    FindStringSubmatch (MustCompile hwCapPattern) l = None) ->
         fst (getHwCap m) = "-")
  /\ "" <> "-".
Proof.
  split; [intros m H; unfold getHwCap; now rewrite H|].
  split.
  - intros m cmd Hc Hm.
    assert (N : GoStrings.index_nat (Stdout cmd) hwCapBytes = None).
    { unfold GoStrings.Index in Hm.
      destruct (GoStrings.index_nat (Stdout cmd) hwCapBytes); [lia|reflexivity]. }
    destruct (RunErr cmd) as [err|] eqn:Hr.
    + unfold getHwCap. rewrite Hc. unfold ReadAll, runCmd. cbn [rdata rerr].
      now rewrite Hr.
    + now rewrite (getHwCap_no_marker m cmd Hc Hr N).
  - split; [|discriminate].
    intros m cmd Hc Hr Hm Hl. rewrite (getHwCap_no_supported_line m cmd Hc Hr); trivial.
    unfold GoStrings.Index in Hm.
    destruct (GoStrings.index_nat (Stdout cmd) hwCapBytes); [discriminate|lia].
Qed.

(** The three cases of [getHwCap_empty_or_dash] met: no command; an output
    without the marker; an output with the marker and no supported line. *)
Lemma getHwCap_empty_or_dash_witness :
  getHwCap (mkMetrics (someCmd "") (someCmd "") (someCmd "") (someCmd "") None) = ("", [])
  /\ fst (getHwCap (someMetrics (line "Usage: ld.so [OPTION]..."))) = ""
  /\ fst (getHwCap (someMetrics (line ldsoGlibc ++ line ldsoV4))) = "-".
Proof.
  destruct getHwCap_empty_or_dash as (H1 & H2 & H3 & _).
  split; [now apply H1|]. split.
  - apply (H2 _ (someCmd (line "Usage: ld.so [OPTION]..."))); [reflexivity|].
    vm_compute. reflexivity.
  - apply (H3 _ (someCmd (line ldsoGlibc ++ line ldsoV4))); [reflexivity|reflexivity| |].
    + vm_compute. discriminate.
    + intros l Hl. vm_compute in Hl. destruct Hl as [<-|[<-|[]]]; vm_compute; reflexivity.
Defined.

(** C2, as amended.  When the glibc-hwcaps marker is present, [getHwCap]
    searches the output up to the first "Legacy HWCAP subdirectories",
    wherever that marker stands, and the whole output when it has none;
    what is searched of an output with the legacy marker lies before the
    marker and is the same whatever follows it, so nothing from the marker
    on is searched. *)
Theorem getHwCap_truncates_at_legacy_marker :
  (forall m cmd,
      hwCapCmd m = Some cmd -> RunErr cmd = None ->
      (GoStrings.Index (Stdout cmd) hwCapBytes >= 0)%Z ->
      getHwCap m =
      hwCapResult (filterFirst (NewReader (searched (Stdout cmd))) hwCapPattern false))
  /\ (forall b i, GoStrings.index_nat b legacyBytes = Some i -> searched b = take i b)
  /\ (forall b, GoStrings.index_nat b legacyBytes = None -> searched b = b)
  /\ (forall p, exists i,
         i <= String.length p
         /\ forall t, searched (p ++ legacyBytes ++ t) = take i p)
  /\ searched (line ldsoGlibc ++ line ldsoV4 ++ line ldsoLegacy ++ line ldsoHaswell) =
     (line ldsoGlibc ++ line ldsoV4)%string.
Proof.
  split.
  - intros m cmd Hc Hr Hm. apply (getHwCap_searched m cmd Hc Hr).
    unfold GoStrings.Index in Hm.
    destruct (GoStrings.index_nat (Stdout cmd) hwCapBytes); [discriminate|lia].
  - split; [exact searched_found|]. split; [exact searched_absent|].
    split; [exact searched_before_marker|]. vm_compute. reflexivity.
Qed.

(** An output of the dynamic loader through [getHwCap]: a supported line of
    the legacy section is not reported, one of the glibc-hwcaps section is. *)
Example getHwCap_ldso_output :
  fst (getHwCap (someMetrics (line ldsoGlibc ++ line ldsoV4
                              ++ line ldsoLegacy ++ line ldsoHaswell))) = "-"
  /\ fst (getHwCap (someMetrics (line ldsoGlibc ++ line ldsoV4 ++ line ldsoV3
                                 ++ line ldsoLegacy ++ line ldsoHaswell))) = "  x86-64-v3".
Proof. split; vm_compute; reflexivity. Qed.

(** C2, as stated, fails on an output whose legacy marker comes before the
    glibc-hwcaps marker: the buffer is truncated at the legacy marker all
    the same, here to nothing. *)
Lemma getHwCap_truncates_before_the_marker :
  GoStrings.Index legacyFirst hwCapBytes = 28%Z
  /\ GoStrings.Index legacyFirst legacyBytes = 0%Z
  /\ searched legacyFirst = ""
  /\ searched legacyFirst <> legacyFirst.
Proof. repeat split; try (vm_compute; reflexivity). vm_compute. discriminate. Qed.

(** On that output [getHwCap] reports no supported level, though the line
    of one stands after the glibc-hwcaps marker. *)
Example getHwCap_legacy_first :
  fst (getHwCap (someMetrics legacyFirst)) = "-"
  /\ filterFirst (NewReader legacyFirst) hwCapPattern false = ("  x86-64-v3", None).
Proof. split; vm_compute; reflexivity. Qed.

End HwCap.

(** ** [runCmd]: the stream of a run *)

Section Pipe.

Import PipeModel.

Lemma length_drop n s : String.length (drop n s) = String.length s - n.
Proof.
  revert s. induction n as [|n IH]; intros s; [cbn; lia|].
  destruct s as [|c s]; [reflexivity|]. cbn. apply IH.
Qed.

Lemma pipeInv_start cmd : pipeInv cmd (start cmd).
Proof. reflexivity. Qed.

Lemma pipeInv_step cmd s s' : step cmd s s' -> pipeInv cmd s -> pipeInv cmd s'.
Proof.
  intros H. destruct H; unfold pipeInv; cbn [ended pw gor got].
  - intros ->. now rewrite append_assoc, take_drop.
  - intros ->. now rewrite append_nil_r.
  - intros [-> E]. unfold runCmd. cbn [rerr]. rewrite <- E. split; reflexivity.
  - intros [-> E]. unfold runCmd. cbn [rerr]. rewrite <- E. split; reflexivity.
  - intros [-> ->]. repeat split.
Qed.

Lemma pipeInv_steps cmd s s' : steps cmd s s' -> pipeInv cmd s -> pipeInv cmd s'.
Proof.
  induction 1 as [|s1 s2 s3 H _ IH]; [trivial|].
  intros I. apply IH. now apply (pipeInv_step cmd s1).
Qed.

Lemma steps_trans cmd s1 s2 s3 : steps cmd s1 s2 -> steps cmd s2 s3 -> steps cmd s1 s3.
Proof.
  induction 1 as [|a b c H _ IH]; [trivial|].
  intros K. apply (steps_step cmd a b); [assumption|now apply IH].
Qed.

(** A reader that has not seen the end of the stream is never stuck. *)
Lemma pipe_progress cmd s :
  pipeInv cmd s -> ended s = None -> exists s', step cmd s s'.
Proof.
  destruct s as [g w r e]. unfold pipeInv. cbn [ended pw gor got].
  intros I ->. destruct w as [|err].
  - destruct g as [pending|[err|]|].
    + destruct pending as [|c pending].
      * eexists. apply step_return.
      * eexists. apply (step_read cmd 1); cbn; lia.
    + eexists. apply step_close_error.
    + eexists. apply step_close.
    + destruct I.
  - eexists. apply step_end.
Qed.

Lemma pipe_measure cmd s s' : step cmd s s' -> measure s' < measure s.
Proof.
  intros H. destruct H; unfold measure; cbn [ended pw gor]; try lia.
  rewrite length_drop. lia.
Qed.

(** Every run that goes on reaches the end of the stream. *)
Lemma pipe_terminates cmd :
  forall n s, measure s < n -> pipeInv cmd s ->
              exists s', steps cmd s s' /\ ended s' <> None.
Proof.
  induction n as [|n IH]; intros s L I; [lia|].
  destruct (ended s) as [r|] eqn:E.
  - exists s. split; [constructor|congruence].
  - destruct (pipe_progress cmd s I E) as (s1 & H).
    destruct (IH s1) as (s' & K & F).
    + pose proof (pipe_measure _ _ _ H). lia.
    + now apply (pipeInv_step cmd s).
    + exists s'. split; [now apply (steps_step cmd s s1)|assumption].
Qed.

(** C8. [runCmd] returns with the process still to run and the stream open.
    In every state of a run, what the consumer has read is a beginning of
    the standard output of the process; the write end is closed, and the
    stream ends, only once all of it has been read; the stream ends with
    the error of [cmd.Run()] wrapped with the arguments of the command, or
    normally when there was none; a consumer that has not seen the end can
    always go on, and going on it reaches the end. *)
Theorem runCmd_stream_ends_after_output :
  forall cmd,
    start cmd = mkState (Running (Stdout cmd)) Open "" None
    /\ forall s,
         reachable cmd s ->
         (exists rest, Stdout cmd = (got s ++ rest)%string)
         /\ (forall r, pw s = Closed r -> got s = Stdout cmd)
         /\ (forall r,
                ended s = Some r ->
                got s = Stdout cmd
                /\ r = match RunErr cmd with
                       | Some err => Some (Wrapf err "'%s' return an error" (Args cmd))
                       | None => None
                       end)
         /\ (ended s = None -> exists s', step cmd s s')
         /\ (exists s',
                steps cmd s s'
                /\ got s' = rdata (runCmd cmd)
                /\ ended s' = Some (rerr (runCmd cmd))).
Proof.
  intros cmd. split; [reflexivity|]. intros s R.
  pose proof (pipeInv_steps cmd _ _ R (pipeInv_start cmd)) as I.
  assert (E : rerr (runCmd cmd) =
              match RunErr cmd with
              | Some err => Some (Wrapf err "'%s' return an error" (Args cmd))
              | None => None
              end) by (cbn; now destruct (RunErr cmd)).
  split; [|split; [|split; [|split]]].
  - destruct s as [g w r e]. unfold pipeInv in I. cbn [ended pw gor got] in *.
    destruct e as [x|]; [exists ""; rewrite append_nil_r; now destruct I|].
    destruct w; [|exists ""; rewrite append_nil_r; now destruct I].
    destruct g as [pending|err|]; [now exists pending| |destruct I].
    exists "". rewrite append_nil_r. now destruct I.
  - intros r Hw. destruct s as [g w x e]. unfold pipeInv in I.
    cbn [ended pw gor got] in *. subst w. destruct e; now destruct I.
  - intros r He. unfold pipeInv in I. rewrite He in I. destruct I as (G & -> & _).
    now split.
  - now apply pipe_progress.
  - destruct (pipe_terminates cmd (S (measure s)) s (Nat.lt_succ_diag_r _) I)
      as (s' & K & F).
    exists s'. split; [assumption|].
    pose proof (pipeInv_steps cmd _ _ K I) as I'. unfold pipeInv in I'.
    destruct (ended s') as [r|]; [|congruence]. destruct I' as (G & -> & _).
    now split.
Qed.

(** A run of [failingCmd]: the consumer reads "a", then "b", and only then
    the stream ends, with the wrapped exit error. *)
Lemma runCmd_stream_ends_after_output_witness :
  exists s,
    reachable failingCmd s
    /\ got s = "ab"
    /\ ended s = Some (Some (Wrapf (OSError "exit status 1") "'%s' return an error"
                                   ["lspci"; "-n"])).
Proof.
  assert (R : reachable failingCmd (mkState (Running "") Open "ab" None)).
  { unfold reachable, start. cbn [failingCmd Stdout].
    eapply steps_step; [apply (step_read failingCmd 1); cbn; lia|].
    eapply steps_step; [apply (step_read failingCmd 1); cbn; lia|].
    constructor. }
  destruct (runCmd_stream_ends_after_output failingCmd) as (_ & H).
  destruct (H _ R) as (_ & _ & _ & _ & s' & K & G & E).
  exists s'. split; [now apply (steps_trans _ _ _ _ R)|]. now split.
Defined.

End Pipe.

(** * Further properties of the mappers *)

(** ** The CPU field walk, once more *)

Lemma visitOrder_app a b : visitOrder (a ++ b) = visitOrder a ++ visitOrder b.
Proof. unfold visitOrder. apply flat_map_app. Qed.

Lemma visitOrder_leaves l : visitOrder (map leaf l) = l.
Proof.
  induction l as [|[f d] l IH]; [reflexivity|].
  cbn [map]. unfold visitOrder in *. cbn [flat_map leaf fst snd visitEntry app].
  now rewrite IH.
Qed.

Lemma lastData_in field visited d :
  lastData field visited = Some d -> In (field, d) visited.
Proof.
  induction visited as [|[f d'] rest IH]; [discriminate|].
  cbn [lastData]. destruct (lastData field rest) as [x|].
  - intros [= <-]. right. now apply IH.
  - destruct (String.eqb_spec f field) as [->|]; [|discriminate].
    intros [= <-]. now left.
Qed.

(** Walking a tree a second time changes nothing: every field already holds
    what the walk writes last. *)
Theorem populateCpuInfo_idempotent :
  forall entries c,
    populateCpuInfo entries (populateCpuInfo entries c) = populateCpuInfo entries c.
Proof.
  intros entries c. apply cpuInfo_ext. intros k.
  rewrite !populateCpuInfo_visit, !get_fold_assign.
  now destruct (lastData (label k) (visitOrder entries)).
Qed.

(** The nesting of the tree does not matter, only the order of the visit:
    the walk of a tree is the walk of the flat list of its entries in
    depth-first order, and two trees with the same order give the same
    record. *)
Theorem populateCpuInfo_flat :
  forall entries c,
    populateCpuInfo entries c = populateCpuInfo (map leaf (visitOrder entries)) c
    /\ forall entries',
         visitOrder entries' = visitOrder entries ->
         populateCpuInfo entries' c = populateCpuInfo entries c.
Proof.
  intros entries c. split.
  - now rewrite !populateCpuInfo_visit, visitOrder_leaves.
  - intros entries' E. now rewrite !populateCpuInfo_visit, E.
Qed.

(** Walks compose: a list of entries followed by another is the walk of the
    first and then the walk of the second on its result, and an entry with
    children is the entry alone followed by its children. *)
Theorem populateCpuInfo_compose :
  forall a b c,
    populateCpuInfo (a ++ b) c = populateCpuInfo b (populateCpuInfo a c)
    /\ forall field data children,
         populateCpuInfo [mkEntry field data children] c =
         populateCpuInfo children (populateCpuInfo [mkEntry field data []] c).
Proof.
  intros a b c. split.
  - now rewrite !populateCpuInfo_visit, visitOrder_app, fold_left_app.
  - intros field data children. rewrite !populateCpuInfo_visit.
    unfold visitOrder. cbn [flat_map visitEntry app]. rewrite app_nil_r.
    reflexivity.
Qed.

(** The walk invents nothing: a field of the result is the field as it was,
    or the data of an entry of the tree that carries the label of the field. *)
Theorem populateCpuInfo_provenance :
  forall entries c k,
    get k (populateCpuInfo entries c) = get k c
    \/ In (label k, get k (populateCpuInfo entries c)) (visitOrder entries).
Proof.
  intros entries c k. rewrite populateCpuInfo_visit, get_fold_assign.
  destruct (lastData (label k) (visitOrder entries)) as [d|] eqn:E; [|now left].
  right. now apply lastData_in.
Qed.

(** ** [getCPU], all outcomes *)

(** [getCPU] panics exactly when [parseJSON] reports no error and hands back
    something else than a non-nil pointer to [Lscpu]; a nil pointer of that
    type passes the type assertion, so the panic then comes without any log
    entry. *)
Theorem getCPU_panics_iff :
  forall parseJSON m,
    ((exists reason, fst (getCPU parseJSON m) = Panics reason) <->
     (exists result,
         parseJSON (runCmd (cpuInfoCmd m)) (ptrLscpu (Some (mkLscpu []))) = (result, None)
         /\ forall l, result <> ptrLscpu (Some l)))
    /\ (parseJSON (runCmd (cpuInfoCmd m)) (ptrLscpu (Some (mkLscpu []))) =
          (ptrLscpu None, None) ->
        getCPU parseJSON m = (Panics nilDereference, [])).
Proof.
  intros parseJSON m. unfold getCPU.
  destruct (parseJSON (runCmd (cpuInfoCmd m)) (ptrLscpu (Some (mkLscpu []))))
    as [result [err|]].
  - split; [|discriminate]. split.
    + intros (reason & H). discriminate.
    + intros (r & H & _). discriminate.
  - split.
    + split.
      * intros (reason & H). exists result. split; [reflexivity|].
        intros l ->. discriminate.
      * intros (r & [= <-] & H).
        destruct result as [|[l|]|shown]; cbn; try (eexists; reflexivity).
        now destruct (H l).
    + intros [= ->]. reflexivity.
Qed.

(** When [parseJSON] hands back a tree, [getCPU] returns a record and logs
    nothing; a field whose label is nowhere in the tree is empty, any other
    holds the data of the last entry with its label. *)
Theorem getCPU_success :
  forall parseJSON m l,
    parseJSON (runCmd (cpuInfoCmd m)) (ptrLscpu (Some (mkLscpu []))) =
      (ptrLscpu (Some l), None) ->
    exists c,
      getCPU parseJSON m = (Returns c, [])
      /\ forall k,
           get k c = match lastData (label k) (visitOrder (Lscpu_Lscpu l)) with
                     | Some d => d
                     | None => ""
                     end.
Proof.
  intros parseJSON m l H. unfold getCPU. rewrite H. cbn.
  eexists. split; [reflexivity|]. intros k.
  rewrite populateCpuInfo_visit, get_fold_assign.
  destruct (lastData (label k) (visitOrder (Lscpu_Lscpu l))); [reflexivity|].
  now destruct k.
Qed.

Lemma getCPU_success_witness :
  exists c,
    getCPU (fun _ _ => (ptrLscpu (Some (mkLscpu [mkEntry "Vendor ID:" "GenuineIntel" []])), None))
           (someMetrics "{}") = (Returns c, [])
    /\ CPU.Vendor c = "GenuineIntel" /\ CPU.Model c = "".
Proof.
  destruct (getCPU_success
              (fun _ _ => (ptrLscpu (Some (mkLscpu [mkEntry "Vendor ID:" "GenuineIntel" []])), None))
              (someMetrics "{}") (mkLscpu [mkEntry "Vendor ID:" "GenuineIntel" []]) eq_refl)
    as (c & E & G).
  exists c. split; [exact E|]. split; [exact (G FVendor)|exact (G FModel)].
Defined.

(** ** The GPU mapper, once more *)

Lemma gpuOf_join r : map joinGPU (gpuOf r) = if hasColonb r then [r] else [].
Proof.
  unfold gpuOf, hasColonb. destruct (GoStrings.index_nat r ":") as [i|] eqn:E; [|reflexivity].
  cbn [map]. unfold joinGPU. cbn [GPU.Vendor GPU.Model].
  rewrite (index_nat_at _ _ _ E) at 3. cbn [String.length]. now rewrite Nat.add_1_r.
Qed.

(** Splitting loses nothing: written back as vendor:model, the records are
    the filtered strings that have a colon, in their order; and no vendor
    has a colon in it. *)
Theorem gpuLoop_round_trip :
  forall results,
    map joinGPU (fst (gpuLoop results [] [])) = filter hasColonb results
    /\ Forall (fun g => GoStrings.index_nat (GPU.Vendor g) ":" = None)
              (fst (gpuLoop results [] [])).
Proof.
  intros results. rewrite gpuLoop_spec. cbn [fst app]. split.
  - induction results as [|r results IH]; [reflexivity|].
    cbn [flat_map filter]. rewrite map_app, IH, gpuOf_join.
    now destruct (hasColonb r).
  - apply Forall_forall. intros g H. apply in_flat_map in H as (r & _ & H).
    unfold gpuOf in H. destruct (GoStrings.index_nat r ":") as [i|] eqn:E; [|destruct H].
    destruct H as [<-|[]]. cbn [GPU.Vendor]. now apply index_nat_first.
Qed.

(** Every filtered string is accounted for once: it gives a record or a log
    entry, never both and never neither; the log holds the strings without
    a colon, in their order. *)
Theorem gpuLoop_accounts_for_every_result :
  forall results,
    List.length (fst (gpuLoop results [] [])) + List.length (snd (gpuLoop results [] []))
    = List.length results
    /\ snd (gpuLoop results [] []) =
       map gpuFormLog (filter (fun s => negb (hasColonb s)) results).
Proof.
  intros results. rewrite gpuLoop_spec. cbn [fst snd app]. split.
  - induction results as [|r results IH]; [reflexivity|].
    cbn [flat_map List.length]. rewrite !length_app.
    assert (List.length (gpuOf r) + List.length (gpuLogOf r) = 1)
      by (unfold gpuOf, gpuLogOf; destruct (GoStrings.index_nat r ":"); reflexivity).
    lia.
  - induction results as [|r results IH]; [reflexivity|].
    cbn [flat_map filter]. rewrite IH. unfold gpuLogOf, hasColonb.
    destruct (GoStrings.index_nat r ":"); reflexivity.
Qed.

(** ** The screen mapper, once more *)

Lemma noSpace_snoc cur c :
  noSpace cur -> c <> " "%char -> noSpace (cur ++ String c "").
Proof.
  unfold noSpace. induction cur as [|a cur IH]; intros H N.
  - cbn [String.append]. rewrite index_nat_cons, prefix_char.
    destruct (Ascii.eqb_spec c " "); [contradiction|]. reflexivity.
  - rewrite index_nat_cons, prefix_char in H. cbn [String.append].
    rewrite index_nat_cons, prefix_char.
    destruct (Ascii.eqb a " "); [discriminate|].
    destruct (GoStrings.index_nat cur " ") eqn:E; [discriminate|].
    now rewrite IH.
Qed.

Lemma spaceWidth_space s : GoStrings.spaceWidth (String " " s) = 1.
Proof. reflexivity. Qed.

Lemma snoc_not_empty cur c : (cur ++ String c "")%string <> "".
Proof. destruct cur; discriminate. Qed.

Lemma flush_tokens cur :
  noSpace cur -> Forall (fun t => t <> "" /\ noSpace t) (GoStrings.flush cur).
Proof.
  intros H. destruct cur; [constructor|].
  constructor; [|constructor]. split; [discriminate|assumption].
Qed.

(** The fields of a string are not empty and have no space in them. *)
Lemma fields_go_tokens s :
  forall skip cur,
    noSpace cur ->
    Forall (fun t => t <> "" /\ noSpace t) (GoStrings.fields_go skip cur s).
Proof.
  induction s as [|c s IH]; intros skip cur H; cbn [GoStrings.fields_go].
  - now apply flush_tokens.
  - destruct skip as [|k]; [|now apply IH].
    destruct (GoStrings.spaceWidth (String c s)) as [|k] eqn:W.
    + apply IH. apply noSpace_snoc; [assumption|].
      intros ->. rewrite spaceWidth_space in W. discriminate.
    + apply Forall_app. split; [now apply flush_tokens|]. now apply IH.
Qed.

Lemma Fields_tokens s : Forall (fun t => t <> "" /\ noSpace t) (GoStrings.Fields s).
Proof. apply fields_go_tokens. reflexivity. Qed.

Lemma stripSpaces_noSpace s : noSpace (stripSpaces s).
Proof.
  unfold noSpace. induction s as [|c s IH]; [reflexivity|].
  cbn [stripSpaces]. destruct (Ascii.eqb c " ") eqn:E; [assumption|].
  rewrite index_nat_cons, prefix_char, E. now rewrite IH.
Qed.

Lemma index_nat_tail c s sub :
  GoStrings.index_nat s sub <> None -> GoStrings.index_nat (String c s) sub <> None.
Proof.
  intros H. rewrite index_nat_cons.
  destruct (String.prefix sub (String c s)); [discriminate|].
  destruct (GoStrings.index_nat s sub); [discriminate|contradiction].
Qed.

Lemma stripSpaces_keeps_mm s :
  isSizeLine s = true -> isSizeLine (stripSpaces s) = true.
Proof.
  unfold isSizeLine.
  assert (G : GoStrings.index_nat s "mm" <> None ->
              GoStrings.index_nat (stripSpaces s) "mm" <> None).
  { induction s as [|c s IH]; [trivial|].
    rewrite index_nat_cons. destruct (String.prefix "mm" (String c s)) eqn:P.
    - intros _. cbn [String.prefix] in P.
      destruct (ascii_dec "m" c) as [<-|]; [|discriminate].
      destruct s as [|c2 s]; [discriminate|].
      rewrite prefix_char in P. apply Ascii.eqb_eq in P as ->.
      change (stripSpaces (String "m" (String "m" s)))
        with (String "m" (String "m" (stripSpaces s))).
      rewrite index_nat_cons.
      change (String.prefix "mm" (String "m" (String "m" (stripSpaces s))))
        with (String.prefix "" (stripSpaces s)).
      destruct (stripSpaces s); discriminate.
    - intros H. assert (T : GoStrings.index_nat s "mm" <> None)
        by (destruct (GoStrings.index_nat s "mm"); [discriminate|contradiction]).
      specialize (IH T). cbn [stripSpaces].
      destruct (Ascii.eqb c " "); [assumption|now apply index_nat_tail]. }
  destruct (GoStrings.index_nat s "mm"); [|discriminate].
  intros _. destruct (GoStrings.index_nat (stripSpaces s) "mm"); [reflexivity|].
  exfalso. apply G; [discriminate|reflexivity].
Qed.

Lemma hd_in (l : list string) d : l <> [] -> In (hd d l) l.
Proof. destruct l; [contradiction|]. intros _. now left. Qed.

Lemma last_in (l : list string) d : l <> [] -> In (last l d) l.
Proof.
  induction l as [|x l IH]; [contradiction|]. intros _.
  destruct l as [|y l]; [now left|]. right. apply IH. discriminate.
Qed.

(** Every record of the screen mapper is well formed: its size has "mm" in
    it, its resolution and its frequency are not empty, and none of the
    three has a space in it. *)
Theorem screenLoop_records_well_formed :
  forall results,
    Forall
      (fun x =>
         isSizeLine (Size x) = true /\ noSpace (Size x)
         /\ Resolution x <> "" /\ noSpace (Resolution x)
         /\ Frequency x <> "" /\ noSpace (Frequency x))
      (fst (screenLoop results "" [] [])).
Proof.
  intros results. rewrite screenLoop_init. cbn [fst].
  apply Forall_forall. intros x H.
  apply screensFrom_in in H as (before & l & after & _ & H).
  cbn [app] in H. unfold screenOf in H.
  destruct (isSizeLine l); [destruct H|].
  destruct (List.length (GoStrings.Fields l) <? 2) eqn:L; [destruct H|].
  destruct (recentSize before) as [size|] eqn:R; [|destruct H].
  destruct H as [<-|[]]. cbn [Size Resolution Frequency].
  destruct (recentSize_from _ _ R) as (sl & _ & Hs & ->).
  assert (N : GoStrings.Fields l <> [])
    by (intros E; rewrite E in L; discriminate).
  pose proof (Fields_tokens l) as T. rewrite Forall_forall in T.
  destruct (T _ (hd_in _ "" N)) as [R1 R2]. destruct (T _ (last_in _ "" N)) as [F1 F2].
  repeat split; try assumption.
  - now apply stripSpaces_keeps_mm.
  - apply stripSpaces_noSpace.
Qed.

Lemma screen_line_once seen l :
  List.length (screenOf seen l) + List.length (screenLogOf seen l) =
  if isModeLine l then 1 else 0.
Proof.
  unfold screenOf, screenLogOf, isModeLine. destruct (isSizeLine l); [reflexivity|].
  destruct (List.length (GoStrings.Fields l) <? 2); [reflexivity|].
  destruct (recentSize seen); reflexivity.
Qed.

(** Every filtered line that is no size line is accounted for once: it
    gives a record or a log entry, never both and never neither; a size
    line gives neither. *)
Theorem screenLoop_accounts_for_every_line :
  forall results,
    List.length (fst (screenLoop results "" [] []))
    + List.length (snd (screenLoop results "" [] []))
    = List.length (filter isModeLine results).
Proof.
  intros results. rewrite screenLoop_init. cbn [fst snd].
  generalize (@nil string). induction results as [|l results IH]; intros seen; [reflexivity|].
  cbn [screensFrom screenLogsFrom filter]. rewrite !length_app.
  pose proof (screen_line_once seen l) as H. specialize (IH (seen ++ [l])).
  destruct (isModeLine l); cbn [List.length]; lia.
Qed.

(** Without a size line there is no record: every line of a listing with
    no size line in it is logged, for its shape when it has fewer than two
    fields and for the missing size otherwise. *)
Theorem screenLoop_without_size_line :
  forall results,
    screenLoop (filter isModeLine results) "" [] [] =
    ([], map screenLogAlone (filter isModeLine results)).
Proof.
  intros results. rewrite screenLoop_init.
  assert (G : forall seen, recentSize seen = None ->
                screensFrom seen (filter isModeLine results) = []
                /\ screenLogsFrom seen (filter isModeLine results) =
                   map screenLogAlone (filter isModeLine results)).
  { induction results as [|l results IH]; intros seen R; [split; reflexivity|].
    cbn [filter]. assert (M : isModeLine l = negb (isSizeLine l)) by reflexivity.
    rewrite M. destruct (isSizeLine l) eqn:E; cbn [negb].
    - now apply IH.
    - cbn [screensFrom screenLogsFrom map].
      destruct (IH (seen ++ [l])) as [I1 I2]; [now rewrite recentSize_snoc, E|].
      rewrite I1, I2. unfold screenOf, screenLogOf, screenLogAlone. rewrite E, R.
      destruct (List.length (GoStrings.Fields l) <? 2); split; reflexivity. }
  destruct (G [] eq_refl) as [-> ->]. reflexivity.
Qed.

Lemma screensFrom_app seen x y :
  screensFrom seen (x ++ y) = screensFrom seen x ++ screensFrom (seen ++ x) y
  /\ screenLogsFrom seen (x ++ y) = screenLogsFrom seen x ++ screenLogsFrom (seen ++ x) y.
Proof.
  revert seen. induction x as [|l x IH]; intros seen.
  - cbn [app screensFrom screenLogsFrom]. now rewrite app_nil_r.
  - cbn [app screensFrom screenLogsFrom]. destruct (IH (seen ++ [l])) as [-> ->].
    rewrite <- !app_assoc. cbn [app]. now split.
Qed.

Lemma screensFrom_recent rest :
  forall seen1 seen2,
    recentSize seen1 = recentSize seen2 ->
    screensFrom seen1 rest = screensFrom seen2 rest
    /\ screenLogsFrom seen1 rest = screenLogsFrom seen2 rest.
Proof.
  induction rest as [|l rest IH]; intros seen1 seen2 E; [split; reflexivity|].
  cbn [screensFrom screenLogsFrom].
  destruct (IH (seen1 ++ [l]) (seen2 ++ [l])) as [-> ->];
    [now rewrite !recentSize_snoc, E|].
  unfold screenOf, screenLogOf. now rewrite E.
Qed.

(** Only the most recent size line counts: of two size lines in a row, the
    first has no effect. *)
Theorem screenLoop_size_line_overrides :
  forall before size1 size2 after,
    isSizeLine size1 = true -> isSizeLine size2 = true ->
    screenLoop (before ++ size1 :: size2 :: after) "" [] [] =
    screenLoop (before ++ size2 :: after) "" [] [].
Proof.
  intros before size1 size2 after H1 H2. rewrite !screenLoop_init.
  destruct (screensFrom_app [] before (size1 :: size2 :: after)) as [-> ->].
  destruct (screensFrom_app [] before (size2 :: after)) as [-> ->].
  cbn [app screensFrom screenLogsFrom]. unfold screenOf, screenLogOf. rewrite H1, H2.
  cbn [app].
  destruct (screensFrom_recent after ((before ++ [size1]) ++ [size2]) (before ++ [size2]))
    as [-> ->]; [|reflexivity].
  now rewrite !recentSize_snoc, H2.
Qed.

Lemma screenLoop_size_line_overrides_witness :
  screenLoop (["1920x1080 60.00"] ++ "300mm x 200mm" :: "510mm x 290mm" :: ["1920x1080 60.00"])
             "" [] [] =
  screenLoop (["1920x1080 60.00"] ++ "510mm x 290mm" :: ["1920x1080 60.00"]) "" [] [].
Proof.
  apply (screenLoop_size_line_overrides ["1920x1080 60.00"] "300mm x 200mm"
           "510mm x 290mm" ["1920x1080 60.00"]); reflexivity.
Defined.

(** ** The partition mapper, once more *)

Lemma partitionLoop_with results :
  forall sizes log,
    partitionLoop results sizes log = partitionLoopWith convKBToGB results sizes log.
Proof.
  induction results as [|r results IH]; intros sizes log; [reflexivity|].
  cbn [partitionLoop partitionLoopWith]. rewrite !IH.
  destruct (convKBToGB (nth 1 (GoStrings.Fields r) "")) as [v [err|]];
    now rewrite ?IH.
Qed.

Lemma partitionLoopWith_counts conv results :
  forall sizes log,
    List.length (fst (partitionLoopWith conv results sizes log))
    + List.length (snd (partitionLoopWith conv results sizes log))
    = List.length sizes + List.length log + List.length (filter nonLoop results).
Proof.
  induction results as [|r results IH]; intros sizes log.
  - cbn. lia.
  - cbn [partitionLoopWith filter]. unfold nonLoop at 1.
    destruct (GoStrings.HasPrefix r "loop"); cbn [negb]; [now rewrite IH|].
    cbn [List.length].
    destruct (negb (List.length (GoStrings.Fields r) =? 2)).
    + rewrite IH, length_app. cbn. lia.
    + destruct (conv (nth 1 (GoStrings.Fields r) "")) as [v [err|]];
        rewrite IH, length_app; cbn; lia.
Qed.

Lemma partitionLoopWith_skips_loop conv results :
  forall sizes log,
    partitionLoopWith conv results sizes log =
    partitionLoopWith conv (filter nonLoop results) sizes log.
Proof.
  induction results as [|r results IH]; intros sizes log; [reflexivity|].
  cbn [partitionLoopWith filter]. unfold nonLoop at 1.
  destruct (GoStrings.HasPrefix r "loop") eqn:E; cbn [negb]; [apply IH|].
  cbn [partitionLoopWith]. rewrite E, !IH.
  destruct (conv (nth 1 (GoStrings.Fields r) "")) as [v [err|]]; now rewrite ?IH.
Qed.

(** Whatever the conversion function does, entries that start with "loop"
    leave no trace, neither a size nor a log entry, and every other entry
    is accounted for once, by a size or by a log entry. *)
Theorem partitionLoop_accounts_for_every_entry :
  (forall results, partitionLoop results [] [] = partitionLoopWith convKBToGB results [] [])
  /\ forall conv results,
       partitionLoopWith conv results [] [] =
       partitionLoopWith conv (filter nonLoop results) [] []
       /\ List.length (fst (partitionLoopWith conv results [] []))
          + List.length (snd (partitionLoopWith conv results [] []))
          = List.length (filter nonLoop results).
Proof.
  split; [intros; apply partitionLoop_with|].
  intros conv results. split; [apply partitionLoopWith_skips_loop|].
  now rewrite partitionLoopWith_counts.
Qed.

(** ** [getHwCap], once more *)

Lemma length_take n s : String.length (take n s) <= n.
Proof.
  revert s. induction n as [|n IH]; intros s; [now destruct s|].
  destruct s as [|c s]; [cbn; lia|]. cbn. specialize (IH s). lia.
Qed.

Lemma index_nat_take_none s sub i :
  GoStrings.index_nat s sub = Some i -> 0 < String.length sub ->
  GoStrings.index_nat (take i s) sub = None.
Proof.
  intros H L. destruct (GoStrings.index_nat (take i s) sub) as [j|] eqn:E; [|reflexivity].
  pose proof (index_nat_length _ _ _ E) as B. pose proof (length_take i s) as T.
  apply (index_nat_append _ _ (drop i s)) in E. rewrite take_drop in E.
  assert (j = i) by congruence. lia.
Qed.

(** What [getHwCap] searches is a beginning of the output, never has the
    legacy marker in it, and is left as it is by a second truncation. *)
Theorem searched_has_no_legacy_marker :
  forall b,
    (exists rest, b = (searched b ++ rest)%string)
    /\ GoStrings.Index (searched b) legacyBytes = (-1)%Z
    /\ searched (searched b) = searched b.
Proof.
  intros b. split; [apply searched_prefix|].
  assert (N : GoStrings.index_nat (searched b) legacyBytes = None).
  { destruct (GoStrings.index_nat b legacyBytes) as [i|] eqn:E.
    - rewrite (searched_found _ _ E). apply (index_nat_take_none _ _ _ E). cbn. lia.
    - now rewrite (searched_absent _ E). }
  split; [unfold GoStrings.Index; now rewrite N|now apply searched_absent].
Qed.

(** [getHwCap] gives a string that is not empty only for a configured
    command that ran without error and whose output has the glibc-hwcaps
    marker; when the command fails, it gives the empty string whatever the
    output was, and logs the error of the command with its arguments. *)
Theorem getHwCap_not_empty_only_if :
  forall m,
    (fst (getHwCap m) <> "" ->
     exists cmd,
       hwCapCmd m = Some cmd /\ RunErr cmd = None
       /\ (GoStrings.Index (Stdout cmd) hwCapBytes >= 0)%Z)
    /\ forall cmd err,
         hwCapCmd m = Some cmd -> RunErr cmd = Some err ->
         getHwCap m = ("", hwCapReadLog (Wrapf err "'%s' return an error" (Args cmd))).
Proof.
  intros m. unfold getHwCap. destruct (hwCapCmd m) as [cmd|]; [|split; [now intros []|discriminate]].
  unfold ReadAll, runCmd. cbn [rdata rerr].
  destruct (RunErr cmd) as [err|] eqn:R; cbn [option_map].
  - split; [now intros []|]. intros c e [= <-] H. rewrite R in H.
    injection H as <-. reflexivity.
  - split; [|intros c e [= <-] H; congruence]. intros H. exists cmd. split; [reflexivity|]. split; [assumption|].
    destruct (GoStrings.Index (Stdout cmd) hwCapBytes <? 0)%Z eqn:I; [now destruct H|].
    apply Z.ltb_ge in I. lia.
Qed.

(** ** [runCmd]: runs, once more *)

Section PipeRuns.

Import PipeModel.

Lemma step_got cmd s s' : step cmd s s' -> exists x, got s' = (got s ++ x)%string.
Proof.
  intros H. destruct H; cbn [got]; try (exists ""; now rewrite append_nil_r).
  now exists (take n pending).
Qed.

Lemma step_not_ended cmd s s' : step cmd s s' -> ended s = None.
Proof. intros H. now destruct H. Qed.

Lemma step_closed cmd s s' r : step cmd s s' -> pw s = Closed r -> pw s' = Closed r.
Proof. intros H. destruct H; cbn [pw]; try discriminate. trivial. Qed.

(** Along a run the consumer only reads on: what it has read stays and is
    added to; a closed write end stays closed with the same error; and
    once the consumer has seen the end of the stream nothing happens any
    more. *)
Theorem pipe_runs_are_monotone :
  forall cmd s s',
    steps cmd s s' ->
    (exists x, got s' = (got s ++ x)%string)
    /\ (forall r, pw s = Closed r -> pw s' = Closed r)
    /\ (forall r, ended s = Some r -> s' = s).
Proof.
  intros cmd s s' H. induction H as [s|s1 s2 s3 H _ ((x & Hx) & Hc & He)].
  - split; [exists ""; now rewrite append_nil_r|]. split; trivial.
  - destruct (step_got _ _ _ H) as (y & Hy). split; [|split].
    + exists (y ++ x)%string. now rewrite Hx, Hy, append_assoc.
    + intros r Hr. apply Hc. now apply (step_closed cmd s1).
    + intros r Hr. rewrite (step_not_ended _ _ _ H) in Hr. discriminate.
Qed.

Lemma pipe_runs_are_monotone_witness :
  exists x, "ab" = ("a" ++ x)%string.
Proof.
  assert (R : steps failingCmd (mkState (Running "b") Open "a" None)
                    (mkState (Running "") Open "ab" None)).
  { eapply steps_step; [apply (step_read failingCmd 1 "b" "a"); cbn; lia|]. constructor. }
  exact (proj1 (pipe_runs_are_monotone _ _ _ R)).
Defined.

Lemma stepsN_steps cmd n s s' : stepsN cmd n s s' -> steps cmd s s'.
Proof.
  induction 1 as [|n s1 s2 s3 H _ IH]; [constructor|].
  now apply (steps_step cmd s1 s2).
Qed.

Lemma stepsN_measure cmd n s s' : stepsN cmd n s s' -> n + measure s' <= measure s.
Proof.
  induction 1 as [|n s1 s2 s3 H _ IH]; [lia|].
  pose proof (pipe_measure _ _ _ H). lia.
Qed.

(** However the consumer cuts up its reads, a run of [runCmd cmd] has at
    most three steps more than the output has bytes, and two runs that
    reached the end of the stream have read the same bytes and seen the
    same end. *)
Theorem pipe_runs_are_bounded :
  forall cmd,
    (forall n s, stepsN cmd n (start cmd) s -> n <= String.length (Stdout cmd) + 3)
    /\ forall s1 s2,
         reachable cmd s1 -> reachable cmd s2 ->
         ended s1 <> None -> ended s2 <> None ->
         got s1 = got s2 /\ ended s1 = ended s2.
Proof.
  intros cmd. split.
  - intros n s H. apply stepsN_measure in H. cbn in H. lia.
  - intros s1 s2 R1 R2 E1 E2.
    pose proof (pipeInv_steps cmd _ _ R1 (pipeInv_start cmd)) as I1.
    pose proof (pipeInv_steps cmd _ _ R2 (pipeInv_start cmd)) as I2.
    unfold pipeInv in I1, I2.
    destruct (ended s1) as [r1|]; [|congruence]. destruct (ended s2) as [r2|]; [|congruence].
    destruct I1 as (G1 & -> & _). destruct I2 as (G2 & -> & _).
    split; [congruence|reflexivity].
Qed.

Lemma pipe_runs_are_bounded_witness :
  4 <= String.length (Stdout failingCmd) + 3.
Proof.
  apply (proj1 (pipe_runs_are_bounded failingCmd) 4
           (mkState Finished
                    (Closed (Some (Wrapf (OSError "exit status 1") "'%s' return an error"
                                         ["lspci"; "-n"])))
                    "ab" None)).
  unfold start. cbn [failingCmd Stdout].
  eapply stepsN_step; [apply (step_read failingCmd 1); cbn; lia|].
  eapply stepsN_step; [apply (step_read failingCmd 1); cbn; lia|].
  eapply stepsN_step; [apply step_return|].
  eapply stepsN_step; [apply step_close_error|].
  constructor.
Defined.

End PipeRuns.

(** ** [getArch] *)

Section Arch.

Import GoTrim.

Lemma spaceWidth_runes s :
  GoStrings.spaceWidth s =
  match s with
  | String c1 s1 =>
      if space1 c1 then 1
      else match s1 with
           | String c2 s2 =>
               if space2 c1 c2 then 2
               else match s2 with
                    | String c3 _ => if space3 c1 c2 c3 then 3 else 0
                    | EmptyString => 0
                    end
           | EmptyString => 0
           end
  | EmptyString => 0
  end.
Proof.
  destruct s as [|c1 [|c2 [|c3 s]]]; try reflexivity.
  unfold GoStrings.spaceWidth, space1, space2, space3. cbv zeta.
  destruct (_ || (nat_of_ascii c1 =? 32)); [reflexivity|].
  destruct ((nat_of_ascii c1 =? 194) && _); [reflexivity|].
  destruct ((nat_of_ascii c1 =? 225) && _ && _); [reflexivity|].
  destruct ((nat_of_ascii c1 =? 226) && (nat_of_ascii c2 =? 128) && _); [reflexivity|].
  destruct ((nat_of_ascii c1 =? 226) && (nat_of_ascii c2 =? 129) && _); [reflexivity|].
  destruct ((nat_of_ascii c1 =? 227) && _ && _); reflexivity.
Qed.

Lemma spaceWidth_le s : GoStrings.spaceWidth s <= String.length s.
Proof.
  rewrite spaceWidth_runes. destruct s as [|c1 [|c2 [|c3 s]]]; cbn [String.length];
    repeat match goal with |- context [if ?b then _ else _] => destruct b end; lia.
Qed.

Lemma spaceWidth_append s y k :
  GoStrings.spaceWidth s = S k -> GoStrings.spaceWidth (s ++ y) = S k.
Proof.
  rewrite !spaceWidth_runes.
  destruct s as [|c1 [|c2 [|c3 s]]]; cbn [String.append]; try discriminate.
  - destruct (space1 c1); [trivial|discriminate].
  - destruct (space1 c1); [trivial|]. destruct (space2 c1 c2); [trivial|discriminate].
  - trivial.
Qed.

Lemma spaceWidth_take s k :
  GoStrings.spaceWidth s = S k -> GoStrings.spaceWidth (take (S k) s) = S k.
Proof.
  rewrite !spaceWidth_runes.
  destruct s as [|c1 [|c2 [|c3 s]]]; try discriminate.
  - destruct (space1 c1) eqn:A; [|discriminate]. intros [= <-]. cbn [take]. now rewrite A.
  - destruct (space1 c1) eqn:A.
    + intros [= <-]. cbn [take]. now rewrite A.
    + destruct (space2 c1 c2) eqn:B; [|discriminate]. intros [= <-]. cbn [take].
      now rewrite A, B.
  - destruct (space1 c1) eqn:A.
    + intros [= <-]. cbn [take]. now rewrite A.
    + destruct (space2 c1 c2) eqn:B.
      * intros [= <-]. cbn [take]. now rewrite A, B.
      * destruct (space3 c1 c2 c3) eqn:C; [|discriminate]. intros [= <-]. cbn [take].
        now rewrite A, B, C.
Qed.

Lemma length_take_le n s : n <= String.length s -> String.length (take n s) = n.
Proof.
  revert s. induction n as [|n IH]; intros s H; [now destruct s|].
  destruct s as [|c s]; [cbn in H; lia|]. cbn. rewrite IH; [reflexivity|cbn in H; lia].
Qed.

Lemma drop_append_le n (x y : string) :
  n <= String.length x -> drop n (x ++ y) = (drop n x ++ y)%string.
Proof.
  revert x. induction n as [|n IH]; intros x H; [now destruct x, y|].
  destruct x as [|c x]; [cbn in H; lia|]. cbn. apply IH. cbn in H. lia.
Qed.

Lemma Spaces_append a b : Spaces a -> Spaces b -> Spaces (a ++ b).
Proof.
  intros Ha Hb. induction Ha as [|s k W _ IH]; [exact Hb|].
  apply (Spaces_rune _ k); [now apply spaceWidth_append|].
  rewrite drop_append_le; [exact IH|]. rewrite <- W. apply spaceWidth_le.
Qed.

Lemma isSpaces_go_sound fuel : forall s, isSpaces_go fuel s = true -> Spaces s.
Proof.
  induction fuel as [|fuel IH]; intros s; destruct s as [|c s]; cbn [isSpaces_go];
    try (intros _; constructor); try discriminate.
  destruct (GoStrings.spaceWidth (String c s)) as [|k] eqn:W; [discriminate|].
  intros H. apply (Spaces_rune _ k W). now apply IH.
Qed.

Lemma isSpaces_go_complete s :
  Spaces s -> forall fuel, String.length s <= fuel -> isSpaces_go fuel s = true.
Proof.
  induction 1 as [|s k W _ IH]; intros fuel L; [now destruct fuel|].
  destruct s as [|c s]; [now destruct fuel|].
  destruct fuel as [|fuel]; [cbn in L; lia|].
  cbn [isSpaces_go]. rewrite W. apply IH. rewrite length_drop. lia.
Qed.

Lemma isSpaces_Spaces s : isSpaces s = true <-> Spaces s.
Proof.
  split; [apply isSpaces_go_sound|]. intros H. now apply isSpaces_go_complete.
Qed.

Lemma trimLeft_go_split fuel :
  forall s, exists a, s = (a ++ trimLeft_go fuel s)%string /\ Spaces a.
Proof.
  induction fuel as [|fuel IH]; intros s; cbn [trimLeft_go].
  - exists "". split; [reflexivity|constructor].
  - destruct (GoStrings.spaceWidth s) as [|k] eqn:W.
    + exists "". split; [reflexivity|constructor].
    + destruct (IH (drop (S k) s)) as (a & E & Ha).
      pose proof (spaceWidth_le s) as L. rewrite W in L.
      exists (take (S k) s ++ a)%string. split.
      * rewrite append_assoc, <- E. now rewrite take_drop.
      * apply (Spaces_rune _ k).
        -- apply spaceWidth_append. now apply spaceWidth_take.
        -- rewrite drop_append_le by (rewrite length_take_le; lia).
           replace (drop (S k) (take (S k) s)) with "".
           ++ exact Ha.
           ++ rewrite <- (append_nil_r (take (S k) s)) at 1.
              rewrite <- (length_take_le (S k) s L) at 1.
              clear. induction (take (S k) s) as [|c t IH]; [reflexivity|exact IH].
Qed.

Lemma trimLeft_go_done fuel :
  forall s, String.length s <= fuel -> GoStrings.spaceWidth (trimLeft_go fuel s) = 0.
Proof.
  induction fuel as [|fuel IH]; intros s L; cbn [trimLeft_go].
  - destruct s; [reflexivity|cbn in L; lia].
  - destruct (GoStrings.spaceWidth s) as [|k] eqn:W; [assumption|].
    apply IH. rewrite length_drop. lia.
Qed.

Lemma TrimRightSpace_split s :
  exists b, s = (TrimRightSpace s ++ b)%string /\ Spaces b.
Proof.
  induction s as [|c s (b & E & Hb)].
  - exists "". split; [reflexivity|constructor].
  - cbn [TrimRightSpace]. destruct (isSpaces (String c s)) eqn:I.
    + exists (String c s). split; [reflexivity|now apply isSpaces_Spaces].
    + exists b. split; [|assumption]. cbn [String.append]. now rewrite <- E.
Qed.

Lemma TrimRightSpace_no_trailing s :
  forall p q, TrimRightSpace s = (p ++ q)%string -> q <> "" -> ~ Spaces q.
Proof.
  induction s as [|c s IH]; intros p q E N Hq.
  - destruct p; [cbn in E; congruence|discriminate].
  - cbn [TrimRightSpace] in E. destruct (isSpaces (String c s)) eqn:I.
    + destruct p; [cbn in E; congruence|discriminate].
    + destruct p as [|a p].
      * cbn [String.append] in E. subst q.
        destruct (TrimRightSpace_split s) as (b & Es & Hb).
        assert (S' : Spaces (String c s)).
        { rewrite Es. change (String c (TrimRightSpace s ++ b))%string
            with (String c (TrimRightSpace s) ++ b)%string.
          now apply Spaces_append. }
        apply isSpaces_Spaces in S'. congruence.
      * cbn [String.append] in E. injection E as _ E. now apply (IH p q).
Qed.

Lemma TrimRightSpace_no_leading s :
  GoStrings.spaceWidth s = 0 -> GoStrings.spaceWidth (TrimRightSpace s) = 0.
Proof.
  intros W. destruct (TrimRightSpace_split s) as (b & E & _).
  destruct (GoStrings.spaceWidth (TrimRightSpace s)) as [|k] eqn:K; [reflexivity|].
  apply (spaceWidth_append _ b) in K. rewrite <- E in K. congruence.
Qed.

(** [getArch] gives the empty string and a log entry when the command
    fails.  Otherwise it logs nothing and gives the output without the
    white space at its two ends: the output is white space, then the
    result, then white space, and the result neither begins nor ends with
    a white-space rune. *)
Theorem getArch_trims_both_ends :
  forall cmd,
    match archErr cmd with
    | Some err => getArch cmd = ("", archLog err)
    | None =>
        snd (getArch cmd) = []
        /\ (exists a b,
               archOutput cmd = (a ++ fst (getArch cmd) ++ b)%string
               /\ Spaces a /\ Spaces b)
        /\ GoStrings.spaceWidth (fst (getArch cmd)) = 0
        /\ forall p q,
             fst (getArch cmd) = (p ++ q)%string -> q <> "" -> ~ Spaces q
    end.
Proof.
  intros cmd. unfold getArch, CombinedOutput.
  destruct (archErr cmd) as [err|]; [reflexivity|]. cbn [fst snd].
  split; [reflexivity|]. unfold TrimSpace, TrimLeftSpace.
  pose proof (trimLeft_go_done (String.length (archOutput cmd)) (archOutput cmd)
                (Nat.le_refl _)) as D.
  destruct (trimLeft_go_split (String.length (archOutput cmd)) (archOutput cmd))
    as (a & Ea & Ha).
  destruct (TrimRightSpace_split (trimLeft_go (String.length (archOutput cmd)) (archOutput cmd)))
    as (b & Eb & Hb).
  split; [|split].
  - exists a, b. split; [|now split]. now rewrite <- Eb.
  - now apply TrimRightSpace_no_leading.
  - apply TrimRightSpace_no_trailing.
Qed.

(** The output of [uname -m] with its line feed, and an output between
    no-break spaces (U+00A0, two bytes each). *)
Example getArch_examples :
  getArch (mkArchCmd ["uname"; "-m"] (line "x86_64") None) = ("x86_64", [])
  /\ getArch (mkArchCmd ["uname"; "-m"]
                        (String (ascii_of_nat 194) (String (ascii_of_nat 160) " arm 64 ")
                         ++ String (ascii_of_nat 194) (String (ascii_of_nat 160) ""))
                        None) = ("arm 64", [])
  /\ getArch (mkArchCmd ["uname"; "-m"] (line "  ") None) = ("", [])
  /\ getArch (mkArchCmd ["uname"; "-m"] "x86_64" (Some (OSError "exit status 1"))) =
     ("", archLog (OSError "exit status 1")).
Proof. repeat split; vm_compute; reflexivity. Qed.

End Arch.

(** ** The patterns of the mappers, once more *)

Section PatternGroups.

Import Regexp.

(** A pattern without group [i] leaves its capture as it was. *)
Lemma run_untouched i r :
  hasGroup i r = false ->
  forall t t', In t' (run r t) -> lookup i (caps_of t') = lookup i (caps_of t).
Proof.
  induction r as [|k|a IHa b IHb|a IHa b IHb|a IHa|j a IHa| |]; cbn [hasGroup];
    intros N t t'; cbn [run].
  - now intros [<-|[]].
  - destruct (rest_of t); [intros []|]. destruct (cset_mem k a); [|intros []].
    now intros [<-|[]].
  - apply orb_false_iff in N as [Na Nb]. rewrite in_flat_map. intros (t1 & H1 & H2).
    rewrite (IHb Nb _ _ H2). now apply IHa.
  - apply orb_false_iff in N as [Na Nb]. rewrite in_app_iff.
    intros [H|H]; [now apply IHa|now apply IHb].
  - generalize (String.length (rest_of t)). intros fuel. revert t.
    induction fuel as [|fuel IH]; intros t H; apply star_cases in H;
      destruct H as [->|(fuel' & t1 & E & H1 & L & H2)]; try reflexivity; [discriminate|].
    injection E as <-. rewrite (IH _ H2). now apply IHa.
  - apply orb_false_iff in N as [Nj Na]. rewrite in_map_iff. intros (t1 & <- & H1).
    unfold capture. cbn [caps_of fst lookup]. rewrite Nj. now apply (IHa Na t).
  - destruct (pos_of t =? 0); [|intros []]. now intros [<-|[]].
  - destruct (rest_of t); [|intros []]. now intros [<-|[]].
Qed.

Lemma find_from_anchored x :
  forall s p m, find_from (Seq Bol x) p s = Some m ->
                mstart m = 0
                /\ exists u t', In t' (run x ([], 0, u)) /\ mcaps m = caps_of t'.
Proof.
  intros s p m H. destruct (find_from_some _ _ _ _ H) as (q & u & t' & Hin & Hq & Hc).
  cbn [run] in Hin. apply in_flat_map in Hin as (t0 & H0 & H1).
  cbn [pos_of fst snd] in H0. destruct (Nat.eqb_spec q 0) as [->|]; [|destruct H0].
  destruct H0 as [<-|[]]. split; [assumption|]. now exists u, t'.
Qed.

Lemma index_mm_append x y : isSizeLine (x ++ String "m" (String "m" y)) = true.
Proof.
  unfold isSizeLine.
  assert (G : GoStrings.index_nat (x ++ String "m" (String "m" y)) "mm" <> None).
  { induction x as [|c x IH]; [|now apply index_nat_tail].
    cbn [String.append]. rewrite index_nat_cons.
    change (String.prefix "mm" (String "m" (String "m" y))) with (String.prefix "" y).
    destruct y; discriminate. }
  destruct (GoStrings.index_nat (x ++ String "m" (String "m" y)) "mm"); [reflexivity|].
  now destruct G.
Qed.

Lemma lang_seq_mm a b x :
  lang (Seq a (Seq (Chr (CChar "m")) (Seq (Chr (CChar "m")) b))) x ->
  isSizeLine x = true.
Proof.
  intros L. inversion L as [| |? ? xa y La Lb| | | | | | |]; subst.
  inversion Lb as [| |? ? x1 y1 L1 Lc| | | | | | |]; subst.
  inversion Lc as [| |? ? x2 y2 L2 Ld| | | | | | |]; subst.
  inversion L1 as [|? c1 M1| | | | | | | |]; subst.
  inversion L2 as [|? c2 M2| | | | | | | |]; subst.
  cbn in M1, M2. apply Ascii.eqb_eq in M1 as ->. apply Ascii.eqb_eq in M2 as ->.
  apply index_mm_append.
Qed.

Lemma in_run_alt a b t t' :
  In t' (run (Alt a b) t) -> In t' (run a t) \/ In t' (run b t).
Proof. cbn [run]. apply in_app_iff. Qed.

Lemma anchored_group x i s m :
  sets i x = true ->
  find_from (Seq Bol x) 0 s = Some m -> lookup i (mcaps m) <> None.
Proof.
  intros S H. destruct (find_from_anchored _ _ _ _ H) as (_ & u & t' & Hin & ->).
  now apply (run_sets i x S ([], 0, u)).
Qed.

(** A match of one of the four patterns begins at the beginning of the line
    and has a capture: group 1 for the GPU, partition and capability
    patterns, and exactly one of the groups 1 and 2 for the screen pattern;
    a capture of group 2, the physical size, has "mm" in it, which is how
    [getScreens] tells a size from a mode. *)
Theorem patterns_anchored_with_a_capture :
  forall l m,
    (FindStringSubmatch (MustCompile gpuPattern) l = Some m ->
     mstart m = 0 /\ lookup 1 (mcaps m) <> None)
    /\ (FindStringSubmatch (MustCompile partitionPattern) l = Some m ->
        mstart m = 0 /\ lookup 1 (mcaps m) <> None)
    /\ (FindStringSubmatch (MustCompile hwCapPattern) l = Some m ->
        mstart m = 0 /\ lookup 1 (mcaps m) <> None)
    /\ (FindStringSubmatch (MustCompile screenPattern) l = Some m ->
        mstart m = 0
        /\ ((lookup 1 (mcaps m) <> None /\ lookup 2 (mcaps m) = None)
            \/ (lookup 1 (mcaps m) = None /\ lookup 2 (mcaps m) <> None))
        /\ forall g, lookup 2 (mcaps m) = Some g -> isSizeLine g = true).
Proof.
  intros l m. unfold FindStringSubmatch.
  split; [|split; [|split]].
  - let r := eval vm_compute in (prog (MustCompile gpuPattern)) in
    change (prog (MustCompile gpuPattern)) with r.
    intros H. split; [now apply (find_from_anchored _ _ _ _ H)|].
    refine (anchored_group _ 1 _ _ _ H). reflexivity.
  - let r := eval vm_compute in (prog (MustCompile partitionPattern)) in
    change (prog (MustCompile partitionPattern)) with r.
    intros H. split; [now apply (find_from_anchored _ _ _ _ H)|].
    refine (anchored_group _ 1 _ _ _ H). reflexivity.
  - let r := eval vm_compute in (prog (MustCompile hwCapPattern)) in
    change (prog (MustCompile hwCapPattern)) with r.
    intros H. split; [now apply (find_from_anchored _ _ _ _ H)|].
    refine (anchored_group _ 1 _ _ _ H). reflexivity.
  - let r := eval vm_compute in (prog (MustCompile screenPattern)) in
    change (prog (MustCompile screenPattern)) with r.
    intros H. destruct (find_from_anchored _ _ _ _ H) as (St & u & t' & Hin & Hc).
    split; [assumption|]. rewrite Hc. split.
    + destruct (in_run_alt _ _ _ _ Hin) as [Ha|Hb].
      * left. split.
        -- revert Ha. apply run_sets. reflexivity.
        -- revert Ha. apply (run_untouched 2). reflexivity.
      * right. split.
        -- revert Hb. apply (run_untouched 1). reflexivity.
        -- revert Hb. apply run_sets. reflexivity.
    + revert Hin.
      apply (run_group_texts (fun g => isSizeLine g = true) 2); [|intros g [=]].
      cbn [groupTexts]. repeat split; try discriminate.
      intros _ x L. now apply lang_seq_mm in L.
Qed.

Lemma patterns_anchored_with_a_capture_witness :
  (mstart (mkMatch 0 95 [(2, "510mm x 290mm")]) = 0
   /\ ((lookup 1 [(2, "510mm x 290mm")] <> None /\ lookup 2 [(2, "510mm x 290mm")] = None)
       \/ (lookup 1 [(2, "510mm x 290mm")] = None /\ lookup 2 [(2, "510mm x 290mm")] <> None))
   /\ forall g, lookup 2 [(2, "510mm x 290mm")] = Some g -> isSizeLine g = true)
  /\ (mstart (mkMatch 0 32 [(2, " (rev a1)"); (1, "10de:1234")]) = 0
      /\ lookup 1 [(2, " (rev a1)"); (1, "10de:1234")] <> None).
Proof.
  split.
  - apply (proj2 (proj2 (proj2 (patterns_anchored_with_a_capture
                                  xrandrSize (mkMatch 0 95 [(2, "510mm x 290mm")]))))).
    vm_compute. reflexivity.
  - apply (proj1 (patterns_anchored_with_a_capture
                    "01:00.0 0300: 10de:1234 (rev a1)"
                    (mkMatch 0 32 [(2, " (rev a1)"); (1, "10de:1234")]))).
    vm_compute. reflexivity.
Defined.

End PatternGroups.

(** ** The loops on a listing in two parts *)

Lemma partitionLoopWith_acc conv results :
  forall sizes log,
    partitionLoopWith conv results sizes log =
    (sizes ++ fst (partitionLoopWith conv results [] []),
     log ++ snd (partitionLoopWith conv results [] [])).
Proof.
  induction results as [|r results IH]; intros sizes log.
  - cbn. now rewrite !app_nil_r.
  - cbn [partitionLoopWith].
    destruct (GoStrings.HasPrefix r "loop"); [apply IH|].
    destruct (negb (List.length (GoStrings.Fields r) =? 2)).
    + rewrite IH, (IH [] ([] ++ _)). cbn [fst snd app]. now rewrite <- !app_assoc.
    + destruct (conv (nth 1 (GoStrings.Fields r) "")) as [v [err|]].
      * rewrite IH, (IH [] ([] ++ _)). cbn [fst snd app]. now rewrite <- !app_assoc.
      * rewrite IH, (IH ([] ++ _) []). cbn [fst snd app]. now rewrite <- !app_assoc.
Qed.

Lemma partitionLoopWith_app conv a :
  forall b sizes log,
    partitionLoopWith conv (a ++ b) sizes log =
    partitionLoopWith conv b (fst (partitionLoopWith conv a sizes log))
                             (snd (partitionLoopWith conv a sizes log)).
Proof.
  induction a as [|r a IH]; intros b sizes log; [reflexivity|].
  cbn [app partitionLoopWith].
  destruct (GoStrings.HasPrefix r "loop"); [apply IH|].
  destruct (negb (List.length (GoStrings.Fields r) =? 2)); [apply IH|].
  destruct (conv (nth 1 (GoStrings.Fields r) "")) as [v [err|]]; apply IH.
Qed.

(** The GPU and partition loops handle a listing in two parts part by part:
    the records and the log of the whole are those of the first part
    followed by those of the second.  The screen loop, which carries the
    size along, only adds to what it made of the first part. *)
Theorem loops_on_two_parts :
  (forall a b,
      gpuLoop (a ++ b) [] [] =
      (fst (gpuLoop a [] []) ++ fst (gpuLoop b [] []),
       snd (gpuLoop a [] []) ++ snd (gpuLoop b [] [])))
  /\ (forall conv a b,
         partitionLoopWith conv (a ++ b) [] [] =
         (fst (partitionLoopWith conv a [] []) ++ fst (partitionLoopWith conv b [] []),
          snd (partitionLoopWith conv a [] []) ++ snd (partitionLoopWith conv b [] [])))
  /\ (forall a b,
         exists screens log,
           screenLoop (a ++ b) "" [] [] =
           (fst (screenLoop a "" [] []) ++ screens, snd (screenLoop a "" [] []) ++ log)).
Proof.
  split; [|split].
  - intros a b. rewrite !gpuLoop_spec. cbn [fst snd app]. now rewrite !flat_map_app.
  - intros conv a b. rewrite partitionLoopWith_app. apply partitionLoopWith_acc.
  - intros a b. rewrite !screenLoop_init. cbn [fst snd].
    destruct (screensFrom_app [] a b) as [-> ->]. now eexists; eexists.
Qed.

(** ** The CPU field walk on trees without a repeated label *)

Lemma lastData_nodup field d visited :
  NoDup (map fst visited) ->
  (lastData field visited = Some d <-> In (field, d) visited).
Proof.
  intros N. split; [apply lastData_in|].
  induction visited as [|[f0 d0] rest IH]; [intros []|].
  cbn [map fst] in N. apply NoDup_cons_iff in N as [Nin N].
  cbn [lastData]. intros [E|H].
  - injection E as -> ->.
    destruct (lastData field rest) as [d'|] eqn:L.
    + exfalso. apply Nin. apply lastData_in in L.
      now apply (in_map fst) in L.
    + now rewrite String.eqb_refl.
  - now rewrite (IH N H).
Qed.

(** When no label occurs twice in a tree, the order of its entries does not
    matter: a tree with the same entries in another order, or nested in
    another way, gives the same record. *)
Theorem populateCpuInfo_order_irrelevant :
  forall entries entries' c,
    NoDup (map fst (visitOrder entries)) ->
    NoDup (map fst (visitOrder entries')) ->
    (forall fd, In fd (visitOrder entries) <-> In fd (visitOrder entries')) ->
    populateCpuInfo entries c = populateCpuInfo entries' c.
Proof.
  intros entries entries' c N N' S. apply cpuInfo_ext. intros k.
  rewrite !populateCpuInfo_visit, !get_fold_assign.
  destruct (lastData (label k) (visitOrder entries)) as [d|] eqn:L.
  - apply (lastData_nodup _ _ _ N) in L. apply S in L.
    apply (lastData_nodup _ _ _ N') in L. now rewrite L.
  - destruct (lastData (label k) (visitOrder entries')) as [d'|] eqn:L'; [|reflexivity].
    apply (lastData_nodup _ _ _ N') in L'. apply S in L'.
    apply (lastData_nodup _ _ _ N) in L'. congruence.
Qed.

Lemma populateCpuInfo_order_irrelevant_witness :
  populateCpuInfo [mkEntry "Vendor ID:" "GenuineIntel" [mkEntry "Model:" "142" []]] CPU.zero =
  populateCpuInfo [mkEntry "Model:" "142" []; mkEntry "Vendor ID:" "GenuineIntel" []] CPU.zero.
Proof.
  apply populateCpuInfo_order_irrelevant.
  - cbn. repeat constructor; cbn; intuition discriminate.
  - cbn. repeat constructor; cbn; intuition discriminate.
  - intros fd. cbn. tauto.
Defined.
